(** * Console-statement strippers: [remove_console.py] and [clean_console.py]

    A shallow embedding of the two scripts of the repository and of the
    part of Python's [str] and [re] they rely on, followed by the
    properties of the text transformation they perform. *)

From Stdlib Require Import NArith Ascii String List Bool Arith Lia.
From stdpp Require Import base option list.

Local Open Scope N_scope.
Local Open Scope list_scope.

(** ** Text

    A Python [str] is a sequence of Unicode code points; a character is
    modelled by its code point ([ord]). *)

Abbreviation text := (list N).

Definition code (a : ascii) : N := N_of_ascii a.

(** The text of an ASCII string literal of the source. *)
Definition lit (s : string) : text := map code (list_ascii_of_string s).

Definition NL : N := 10.

(** [str.isspace] on one character, which is also the class [\s] of [re]
    on [str] patterns: the ASCII white space (TAB, LF, VT, FF, CR, FS, GS,
    RS, US, SPACE) and the Unicode white space. *)
Definition isspace (c : N) : bool :=
  ((9 <=? c) && (c <=? 13)) || ((28 <=? c) && (c <=? 32))
  || (c =? 133) || (c =? 160) || (c =? 5760)
  || ((8192 <=? c) && (c <=? 8202))
  || (c =? 8232) || (c =? 8233) || (c =? 8239) || (c =? 8287) || (c =? 12288).

(** ** The [str] methods the scripts call *)

Module Str.

(** [s.split(sep)] for a separator of one character. *)
Fixpoint split (sep : N) (s : text) : list text :=
  match s with
  | [] => [[]]
  | c :: s' =>
      if c =? sep then [] :: split sep s'
      else match split sep s' with
           | l :: ls => (c :: l) :: ls
           | [] => [[c]]
           end
  end.

(** [sep.join(ls)]. *)
Fixpoint join (sep : text) (ls : list text) : text :=
  match ls with
  | [] => []
  | l :: ls' =>
      match ls' with
      | [] => l
      | _ :: _ => l ++ sep ++ join sep ls'
      end
  end.

Fixpoint lstrip (s : text) : text :=
  match s with
  | [] => []
  | c :: s' => if isspace c then lstrip s' else s
  end.

Definition rstrip (s : text) : text := rev (lstrip (rev s)).

(** [s.strip()]. *)
Definition strip (s : text) : text := rstrip (lstrip s).

(** [s.startswith(p)]. *)
Fixpoint startswith (p s : text) : bool :=
  match p, s with
  | [], _ => true
  | _ :: _, [] => false
  | a :: p', c :: s' => (a =? c) && startswith p' s'
  end.

(** [needle in s]. *)
Fixpoint contains (needle s : text) : bool :=
  startswith needle s ||
  match s with
  | [] => false
  | _ :: s' => contains needle s'
  end.

End Str.

(** ** The regular expressions of [re] used by the scripts

    The patterns of the two scripts are sequences of single characters,
    of greedy repetitions [X*] of a character class and of the anchors
    [^] and [$]. *)

Module Re.

Inductive cclass :=
| Lit (c : N)        (* the character [c] *)
| Space              (* [\s] *)
| Not (c : N).       (* [[^c]] *)

Definition in_class (k : cclass) (c : N) : bool :=
  match k with
  | Lit a => c =? a
  | Space => isspace c
  | Not a => negb (c =? a)
  end.

Inductive atom :=
| One (k : cclass)   (* one character of the class *)
| Many (k : cclass)  (* [X*], greedy *)
| Bol                (* [^] *)
| Eol.               (* [$] *)

Abbreviation regex := (list atom).

(** *** Reading a pattern of the source *)

Definition escape (x : ascii) : option cclass :=
  match x with
  | "s"%char => Some Space
  | "n"%char => Some (Lit NL)
  | "."%char | "("%char | ")"%char => Some (Lit (code x))
  | _ => None
  end.

Definition plain (x : ascii) : bool :=
  match x with
  | "."%char | "*"%char | "+"%char | "?"%char | "|"%char | "("%char
  | ")"%char | "["%char | "]"%char | "{"%char | "}"%char | "\"%char
  | "^"%char | "$"%char => false
  | _ => true
  end.

Fixpoint parse (s : list ascii) : option regex :=
  match s with
  | [] => Some []
  | "^"%char :: r => cons Bol <$> parse r
  | "$"%char :: r => cons Eol <$> parse r
  | "\"%char :: x :: "*"%char :: r =>
      k ← escape x; cons (Many k) <$> parse r
  | "\"%char :: x :: r =>
      k ← escape x; cons (One k) <$> parse r
  | "["%char :: "^"%char :: x :: "]"%char :: "*"%char :: r =>
      cons (Many (Not (code x))) <$> parse r
  | "["%char :: "^"%char :: x :: "]"%char :: r =>
      cons (One (Not (code x))) <$> parse r
  | x :: "*"%char :: r =>
      if plain x then cons (Many (Lit (code x))) <$> parse r else None
  | x :: r =>
      if plain x then cons (One (Lit (code x))) <$> parse r else None
  end.

(** [re.compile(pattern)]; a pattern outside the fragment is the empty
    pattern here (no pattern of the scripts is). *)
Definition compile (pattern : string) : regex :=
  default [] (parse (list_ascii_of_string pattern)).

(** *** Matching, by backtracking *)

(** [^]: at the start of the text and, under [re.MULTILINE], after each
    line break. [prev] is the character before the position. *)
Definition at_bol (multiline : bool) (prev : option N) : bool :=
  match prev with
  | None => true
  | Some c => multiline && (c =? NL)
  end.

(** [$]: at the end of the text and before a line break that ends the
    text, under [re.MULTILINE] before each line break. *)
Definition at_eol (multiline : bool) (s : text) : bool :=
  match s with
  | [] => true
  | c :: s' => (c =? NL) && (multiline || match s' with [] => true | _ => false end)
  end.

(** [X*] followed by [cont]: take as many characters of the class as
    there are, and give them back one by one until [cont] matches. *)
Fixpoint greedy (k : cclass) (cont : option N -> text -> option text)
    (prev : option N) (s : text) : option text :=
  match s with
  | c :: s' =>
      if in_class k c then
        match greedy k cont (Some c) s' with
        | Some rest => Some rest
        | None => cont prev s
        end
      else cont prev s
  | [] => cont prev s
  end.

(** [rmatch ml p prev s] matches [p] at the start of [s] and returns
    what is left of [s] after the match. *)
Fixpoint rmatch (ml : bool) (p : regex) : option N -> text -> option text :=
  match p with
  | [] => fun _ s => Some s
  | One k :: p' => fun _ s =>
      match s with
      | c :: s' => if in_class k c then rmatch ml p' (Some c) s' else None
      | [] => None
      end
  | Many k :: p' => greedy k (rmatch ml p')
  | Bol :: p' => fun prev s =>
      if at_bol ml prev then rmatch ml p' prev s else None
  | Eol :: p' => fun prev s =>
      if at_eol ml s then rmatch ml p' prev s else None
  end.

(** The scan of [re.sub]: the leftmost match is replaced, the scan
    resumes after it; [skip] counts the characters of the current match
    still to be dropped. An empty match is replaced and the scan moves
    one character on. *)
Fixpoint sub_from (ml : bool) (p : regex) (repl : text)
    (prev : option N) (skip : nat) (s : text) : text :=
  match s with
  | [] =>
      match skip with
      | O => match rmatch ml p prev [] with Some _ => repl | None => [] end
      | S _ => []
      end
  | c :: s' =>
      match skip with
      | S k => sub_from ml p repl (Some c) k s'
      | O =>
          match rmatch ml p prev s with
          | Some rest =>
              match (length s - length rest)%nat with
              | O => repl ++ c :: sub_from ml p repl (Some c) O s'
              | S k => repl ++ sub_from ml p repl (Some c) k s'
              end
          | None => c :: sub_from ml p repl (Some c) O s'
          end
      end
  end.

(** [re.sub(pattern, repl, string, flags=...)] for a replacement without
    group references; [multiline] is the flag [re.MULTILINE]. *)
Definition sub (pattern : string) (repl : text) (s : text)
    (multiline : bool) : text :=
  sub_from multiline (compile pattern) repl None O s.

End Re.

(** ** remove_console.py

    What [remove_console_statements] does to the content of the file,
    between reading and writing it: six substitutions in turn. *)

Definition MULTILINE := true.

Definition remove_console_text (content : text) : text :=
  let content := Re.sub "^\s*console\.log\([^)]*\);\s*$" [] content MULTILINE in
  let content := Re.sub "^\s*console\.warn\([^)]*\);\s*$" [] content MULTILINE in
  let content := Re.sub "console\.log\([^)]*\);\s*" [] content false in
  let content := Re.sub "console\.warn\([^)]*\);\s*" [] content false in
  let content := Re.sub "\.catch\([^)]*console\.log\([^)]*\)[^)]*\)"
                   (lit ".catch(e => {})") content false in
  let content := Re.sub "\n\s*\n\s*\n" [NL; NL] content false in
  content.

(** ** clean_console.py

    What [clean_console_statements] does to the content of the file.
    [clean_line] is the body of the loop over the lines: it returns what
    the iteration appends to [cleaned_lines], nothing when the line is
    skipped. *)

Definition clean_line (line : text) : list text :=
  if Str.contains (lit "console.log(") line || Str.contains (lit "console.warn(") line then
    if Str.startswith (lit "console.log(") (Str.strip line)
       || Str.startswith (lit "console.warn(") (Str.strip line)
    then []
    else
      let line := Re.sub "console\.log\([^)]*\);\s*" [] line false in
      let line := Re.sub "console\.warn\([^)]*\);\s*" [] line false in
      match Str.strip line with
      | [] => []
      | _ :: _ => [line]
      end
  else [line].

Fixpoint clean_lines (lines : list text) (cleaned_lines : list text) : list text :=
  match lines with
  | [] => cleaned_lines
  | line :: lines' => clean_lines lines' (cleaned_lines ++ clean_line line)
  end.

Definition clean_console_text (content : text) : text :=
  let lines := Str.split NL content in
  let cleaned_lines := clean_lines lines [] in
  Str.join [NL] cleaned_lines.

(** ** The exceptions of the transformation

    Between reading the file and writing it back, the calls that can
    raise are those of [re.sub], which compiles its pattern first and
    raises [re.error] when the pattern is malformed; matching raises
    nothing, nor do the [str] methods. The functions below are the
    bodies of the two functions again, with that exception made
    explicit; nothing in the scripts catches it. *)

Inductive error :=
| re_error (pattern : string).

Inductive result (A : Type) :=
| Ok (a : A)
| Raise (e : error).
Arguments Ok {A} a.
Arguments Raise {A} e.

Definition bind {A B : Type} (r : result A) (f : A -> result B) : result B :=
  match r with
  | Ok a => f a
  | Raise e => Raise e
  end.

Notation "'do' x <- r ; k" := (bind r (fun x => k))
  (at level 10, x name, r at level 100, k at level 200).

(** [re.sub(pattern, repl, string, flags=...)] with the exception of the
    compilation of the pattern. *)
Definition re_sub (pattern : string) (repl : text) (s : text)
    (multiline : bool) : result text :=
  match Re.parse (list_ascii_of_string pattern) with
  | Some p => Ok (Re.sub_from multiline p repl None O s)
  | None => Raise (re_error pattern)
  end.

Definition remove_console_run (content : text) : result text :=
  do content <- re_sub "^\s*console\.log\([^)]*\);\s*$" [] content MULTILINE;
  do content <- re_sub "^\s*console\.warn\([^)]*\);\s*$" [] content MULTILINE;
  do content <- re_sub "console\.log\([^)]*\);\s*" [] content false;
  do content <- re_sub "console\.warn\([^)]*\);\s*" [] content false;
  do content <- re_sub "\.catch\([^)]*console\.log\([^)]*\)[^)]*\)"
                  (lit ".catch(e => {})") content false;
  do content <- re_sub "\n\s*\n\s*\n" [NL; NL] content false;
  Ok content.

Definition clean_line_run (line : text) : result (list text) :=
  if Str.contains (lit "console.log(") line || Str.contains (lit "console.warn(") line then
    if Str.startswith (lit "console.log(") (Str.strip line)
       || Str.startswith (lit "console.warn(") (Str.strip line)
    then Ok []
    else
      do line <- re_sub "console\.log\([^)]*\);\s*" [] line false;
      do line <- re_sub "console\.warn\([^)]*\);\s*" [] line false;
      Ok (match Str.strip line with
          | [] => []
          | _ :: _ => [line]
          end)
  else Ok [line].

Fixpoint clean_lines_run (lines : list text) (cleaned_lines : list text)
    : result (list text) :=
  match lines with
  | [] => Ok cleaned_lines
  | line :: lines' =>
      do kept <- clean_line_run line;
      clean_lines_run lines' (cleaned_lines ++ kept)
  end.

Definition clean_console_run (content : text) : result text :=
  do cleaned_lines <- clean_lines_run (Str.split NL content) [];
  Ok (Str.join [NL] cleaned_lines).

(** A Python [str]: every character is a code point, below [0x110000]. *)
Definition is_str (s : text) : bool := forallb (fun c => c <? 1114112) s.

(** ** Vocabulary of the properties *)

(** The two targeted openers, and the characters the patterns name. *)
Definition LOG : text := lit "console.log(".
Definition WARN : text := lit "console.warn(".
Definition CATCH : text := lit ".catch(".
Definition NOOP : text := lit ".catch(e => {})".
Definition ERROR : text := lit "console.error(".
Definition RP : N := 41.
Definition DQ : N := 34.
Definition SEMI : N := 59.

Definition targeted (fn : text) : Prop := fn = LOG \/ fn = WARN.

(** A text without any targeted opener. *)
Definition no_opener (s : text) : bool :=
  negb (Str.contains LOG s) && negb (Str.contains WARN s).

(** The positions at which [w] occurs in [s], counted from [i]. *)
Fixpoint occs_from (w : text) (i : nat) (s : text) : list nat :=
  (if Str.startswith w s then [i] else []) ++
  match s with
  | [] => []
  | _ :: s' => occs_from w (S i) s'
  end.

Definition occs (w s : text) : list nat := occs_from w O s.

Definition count_nl (s : text) : nat := length (List.filter (N.eqb NL) s).

Definition all_space (s : text) : bool := forallb isspace s.

Definition free_of (c : N) (s : text) : bool := forallb (fun x => negb (x =? c)) s.

(** The first character of [s], if any, is not white space. *)
Definition starts_visible (s : text) : bool :=
  match s with
  | [] => true
  | c :: _ => negb (isspace c)
  end.

(** The last character of [s], if any, is not white space. *)
Definition ends_visible (s : text) : bool := starts_visible (rev s).

(** The white space [s] starts with. *)
Fixpoint leading_space (s : text) : text :=
  match s with
  | [] => []
  | c :: s' => if isspace c then c :: leading_space s' else []
  end.

(** No stretch of white space of [s] holds more than two line breaks. *)
Fixpoint blank_ok (s : text) : bool :=
  match s with
  | [] => true
  | _ :: s' => (count_nl (leading_space s) <=? 2)%nat && blank_ok s'
  end.

(** A line with a visible character. *)
Definition nonblank (line : text) : bool := negb (all_space line).

(** The last stage of [remove_console_text], on its own. *)
Definition collapse_blank_lines (s : text) : text :=
  Re.sub "\n\s*\n\s*\n" [NL; NL] s false.

(** The character before the position reached after reading [m], when
    [prev] was the character before [m]. *)
Fixpoint prev_after (prev : option N) (m : text) : option N :=
  match m with
  | [] => prev
  | c :: m' => prev_after (Some c) m'
  end.

(** What is left of a stretch of white space after its last line break. *)
Fixpoint after_last_nl (w : text) : text :=
  match w with
  | [] => []
  | c :: w' => if (0 <? count_nl w')%nat then after_last_nl w'
               else if c =? NL then w' else c :: w'
  end.

(** The patterns of the scripts, as [Re.compile] reads them. *)
Definition lits (w : text) : Re.regex := map (fun c => Re.One (Re.Lit c)) w.

Definition line_rule (fn : text) : Re.regex :=
  Re.Bol :: Re.Many Re.Space :: lits fn ++
  [Re.Many (Re.Not RP); Re.One (Re.Lit RP); Re.One (Re.Lit SEMI);
   Re.Many Re.Space; Re.Eol].

Definition inline_rule (fn : text) : Re.regex :=
  lits fn ++
  [Re.Many (Re.Not RP); Re.One (Re.Lit RP); Re.One (Re.Lit SEMI);
   Re.Many Re.Space].

Definition catch_rule : Re.regex :=
  lits CATCH ++ Re.Many (Re.Not RP) :: lits LOG ++
  [Re.Many (Re.Not RP); Re.One (Re.Lit RP); Re.Many (Re.Not RP);
   Re.One (Re.Lit RP)].

Definition collapse_rule : Re.regex :=
  [Re.One (Re.Lit NL); Re.Many Re.Space; Re.One (Re.Lit NL);
   Re.Many Re.Space; Re.One (Re.Lit NL)].

(** A pattern without [^]. *)
Definition no_bol (p : Re.regex) : bool :=
  forallb (fun a => match a with Re.Bol => false | _ => true end) p.

(** The first character of [s], if any, is outside the class [k]. *)
Definition starts_outside (k : Re.cclass) (s : text) : bool :=
  match s with
  | [] => true
  | c :: _ => negb (Re.in_class k c)
  end.

(** The stages of [remove_console_text], one per kind of rule. *)
Definition strip_line (fn : text) (s : text) : text :=
  Re.sub_from true (line_rule fn) [] None O s.

Definition strip_inline (fn : text) (s : text) : text :=
  Re.sub_from false (inline_rule fn) [] None O s.

Definition neutralize_catch (s : text) : text :=
  Re.sub_from false catch_rule NOOP None O s.

(** The lines of the end-to-end scenario of the specification, and the
    two of them that are not a targeted call. *)
Definition scenario_lines : list text :=
  [lit "let x = 1;"; lit "console.log(x);";
   lit "console.error(" ++ [DQ] ++ lit "fail" ++ [DQ] ++ lit ");"].

Definition scenario_kept : list text :=
  [lit "let x = 1;";
   lit "console.error(" ++ [DQ] ++ lit "fail" ++ [DQ] ++ lit ");"].

(** The white space [s] ends with. *)
Definition trailing_space (s : text) : text := rev (leading_space (rev s)).

(** ** Texts with several calls

    A text in which remove_console.py finds calls is described by the
    text [q] before the first call and, for each call, the call and the
    text [n] that follows it up to the next call: the text is
    [q ++ with_calls ps] for a list [ps] of pairs of a call and the text
    after it.

    - [Line fn ws1 args ws2] is a call alone on its line: indentation
      [ws1], the opener [fn], the arguments [args], [);] and the white
      space [ws2] that ends the line; the line break of the line belongs
      to the text after the call.
    - [Inline fn args w] is a call that follows other content of its
      line: the opener, the arguments, [);] and all the white space [w]
      after it, line breaks included.
    - [Callback x y z] is [.catch(] [x] [console.log(] [y] [)] [z] [)]. *)

Inductive call :=
| Line (fn ws1 args ws2 : text)
| Inline (fn args w : text)
| Callback (x y z : text).

Definition call_text (c : call) : text :=
  match c with
  | Line fn ws1 args ws2 => ws1 ++ fn ++ args ++ RP :: SEMI :: ws2
  | Inline fn args w => fn ++ args ++ RP :: SEMI :: w
  | Callback x y z => CATCH ++ x ++ LOG ++ y ++ RP :: z ++ [RP]
  end.

(** What the substitutions put in the place of a call. *)
Definition call_left (c : call) : text :=
  match c with
  | Callback _ _ _ => NOOP
  | _ => []
  end.

Definition is_targeted (fn : text) : bool :=
  bool_decide (fn = LOG) || bool_decide (fn = WARN).

(** The parts of a call: the opener is targeted, the white space is
    white space, the arguments hold no [)] and no targeted opener; in a
    callback no [;] comes right after the call to [console.log]. *)
Definition call_ok (c : call) : bool :=
  match c with
  | Line fn ws1 args ws2 =>
      is_targeted fn && all_space ws1 && free_of RP args && no_opener args
      && all_space ws2
  | Inline fn args w =>
      is_targeted fn && free_of RP args && no_opener args && all_space w
  | Callback x y z =>
      free_of RP x && no_opener x && free_of RP y && no_opener y
      && free_of RP z && no_opener z && starts_outside (Re.Lit SEMI) z
  end.

Definition is_nil {A : Type} (l : list A) : bool :=
  match l with
  | [] => true
  | _ :: _ => false
  end.

(** [s] starts with a line break followed by a visible character. *)
Definition line_start (s : text) : bool :=
  match s with
  | c :: y :: _ => (c =? NL) && negb (isspace y)
  | _ => false
  end.

(** [s] ends with a visible character followed by a line break. *)
Definition line_end (s : text) : bool :=
  match rev s with
  | c :: x :: _ => (c =? NL) && negb (isspace x)
  | _ => false
  end.

(** Reading backwards, a visible character comes before any line break. *)
Fixpoint visible_first (r : text) : bool :=
  match r with
  | [] => false
  | c :: r' => if c =? NL then false else if isspace c then visible_first r' else true
  end.

(** The last line of [s] (what follows its last line break) has a
    visible character. *)
Definition mid_line (s : text) : bool := visible_first (rev s).

(** The text [p] before a call: a call alone on its line starts the
    text or follows a line that ends with a visible character; a call
    inside a line follows visible content of its line. *)
Definition fits_before (c : call) (first : bool) (p : text) : bool :=
  match c with
  | Line _ _ _ _ => (first && is_nil p) || line_end p
  | Inline _ _ _ => mid_line p
  | Callback _ _ _ => true
  end.

(** The text [n] after a call: a call alone on its line ends the text
    or comes before a line that starts with a visible character; the
    white space of a call inside a line ends the text or comes before a
    visible character. *)
Definition fits_after (c : call) (last : bool) (n : text) : bool :=
  match c with
  | Line _ _ _ _ => (last && is_nil n) || line_start n
  | Inline _ _ _ => (last && is_nil n) || (starts_visible n && negb (is_nil n))
  | Callback _ _ _ => true
  end.

(** Every call of [ps] is well formed and fits the text before and
    after it; [p] is the text before the first call, [first] tells
    whether it starts the whole text. *)
Fixpoint placed (first : bool) (p : text) (ps : list (call * text)) : bool :=
  match ps with
  | [] => true
  | (c, n) :: ps' =>
      call_ok c && fits_before c first p && fits_after c (is_nil ps') n
      && placed false n ps'
  end.

(** The calls with the text after each, as they stand in the file, and
    as remove_console.py leaves them. *)
Fixpoint with_calls (ps : list (call * text)) : text :=
  match ps with
  | [] => []
  | (c, n) :: ps' => call_text c ++ n ++ with_calls ps'
  end.

Fixpoint without_calls (ps : list (call * text)) : text :=
  match ps with
  | [] => []
  | (c, n) :: ps' => call_left c ++ n ++ without_calls ps'
  end.

(** The text around the calls. *)
Fixpoint around (ps : list (call * text)) : text :=
  match ps with
  | [] => []
  | (_, n) :: ps' => n ++ around ps'
  end.

(** Every [.catch(] of [s] is followed, somewhere in [s], by a [)]. *)
Fixpoint closed_catch (s : text) : bool :=
  match s with
  | [] => true
  | _ :: s' =>
      (negb (Str.startswith CATCH s) || negb (free_of RP s)) && closed_catch s'
  end.

(** The text that stands before each callback once the other calls are
    taken out. *)
Fixpoint before_callbacks (p : text) (ps : list (call * text)) : list text :=
  match ps with
  | [] => []
  | (c, n) :: ps' =>
      match c with
      | Callback _ _ _ => p :: before_callbacks n ps'
      | _ => before_callbacks (p ++ n) ps'
      end
  end.

(** The text around the calls holds no targeted opener, and no
    [.catch(] left open before a callback. *)
Definition settled (q : text) (ps : list (call * text)) : bool :=
  no_opener (q ++ around ps) && forallb closed_catch (before_callbacks q ps).

(** The calls that a substitution does not replace, with the text that
    now follows each; the first component is the text before the first
    of them. *)
Fixpoint drop_calls (hit : call -> bool) (p : text) (ps : list (call * text))
    : text * list (call * text) :=
  match ps with
  | [] => (p, [])
  | (c, n) :: ps' =>
      if hit c then drop_calls hit (p ++ n) ps'
      else let r := drop_calls hit n ps' in (p, (c, r.1) :: r.2)
  end.

Definition is_line (fn : text) (c : call) : bool :=
  match c with
  | Line g _ _ _ => bool_decide (g = fn)
  | _ => false
  end.

Definition is_inline (fn : text) (c : call) : bool :=
  match c with
  | Inline g _ _ => bool_decide (g = fn)
  | _ => false
  end.

Definition is_callback (c : call) : bool :=
  match c with
  | Callback _ _ _ => true
  | _ => false
  end.

Definition not_line (c : call) : bool :=
  match c with
  | Line _ _ _ _ => false
  | _ => true
  end.

(** No occurrence of [g] starts inside [q] when [rest] follows. *)
Definition no_start (g q rest : text) : Prop :=
  forall u v, q = u ++ v -> v <> [] -> Str.startswith g (v ++ rest) = false.

(** [no_start], decided position by position. *)
Definition no_start_b (g q rest : text) : bool :=
  forallb (fun k => negb (Str.startswith g (drop k q ++ rest))) (seq 0 (length q)).

(** No proper end of [g] starts [rest]. *)
Definition overlap_free (g rest : text) : bool :=
  forallb (fun k => negb (Str.startswith (drop k g) rest)) (seq 1 (length g - 1)).

(** A word made of visible characters, as the openers and [.catch(] are. *)
Definition visible (g : text) : bool := forallb (fun c => negb (isspace c)) g.

(** No match of [p] starts inside [m] when [rest] follows; [prev] is the
    character before [m]. *)
Definition silent (ml : bool) (p : Re.regex) (prev : option N) (m rest : text) : Prop :=
  forall u v, m = u ++ v -> v <> [] ->
    Re.rmatch ml p (prev_after prev u) (v ++ rest) = None.

(** The calls after a substitution that replaces those of [hit] by [repl]. *)
Fixpoint after_sub (hit : call -> bool) (repl : text) (ps : list (call * text)) : text :=
  match ps with
  | [] => []
  | (c, n) :: ps' =>
      (if hit c then repl else call_text c) ++ n ++ after_sub hit repl ps'
  end.

(** What the parts of a text with calls are known to be before a
    substitution, all its calls satisfying [only]. *)
Definition staged (only : call -> bool) (first : bool) (q : text)
    (ps : list (call * text)) : Prop :=
  placed first q ps = true /\ settled q ps = true /\
  forallb (fun cn => only cn.1) ps = true.

(** ** Measures of a text and of a pattern *)

(** The sum of [f] over the characters of [s]. *)
Fixpoint weight (f : N -> nat) (s : text) : nat :=
  match s with
  | [] => O
  | c :: s' => (f c + weight f s')%nat
  end.

(** A lower bound of the weight of what [p] matches, when [lb k] is a
    lower bound of [f] on the class [k]. *)
Fixpoint min_weight (lb : Re.cclass -> nat) (p : Re.regex) : nat :=
  match p with
  | [] => O
  | Re.One k :: p' => (lb k + min_weight lb p')%nat
  | _ :: p' => min_weight lb p'
  end.

Definition one (c : N) : nat := 1%nat.

Definition is_nl (c : N) : nat := if c =? NL then 1%nat else O.

Definition nl_bound (k : Re.cclass) : nat :=
  match k with
  | Re.Lit c => is_nl c
  | _ => O
  end.

(** The length of [sep.join(ls)] for a separator of one character. *)
Fixpoint joined_length (ls : list text) : nat :=
  match ls with
  | [] => O
  | l :: ls' =>
      match ls' with
      | [] => length l
      | _ :: _ => (length l + 1 + joined_length ls')%nat
      end
  end.

(** * Properties *)

(** ** Characters *)

Lemma isspace_NL : isspace NL = true.
Proof. reflexivity. Qed.

Lemma visible_not_NL c : isspace c = false -> c <> NL.
Proof. intros H ->. discriminate. Qed.

Lemma visible_neqb_NL c : isspace c = false -> (c =? NL) = false.
Proof. intros H. apply N.eqb_neq. now apply visible_not_NL. Qed.

(** ** [str] methods *)

Section StrFacts.

Import Str.

Lemma startswith_app p r : startswith p (p ++ r) = true.
Proof.
  induction p as [|a p IH]; simpl; [reflexivity|].
  now rewrite N.eqb_refl.
Qed.

Lemma startswith_inv p s :
  startswith p s = true -> exists r, s = p ++ r.
Proof.
  revert s. induction p as [|a p IH]; intros s H.
  - now exists s.
  - destruct s as [|c s]; simpl in H; [discriminate|].
    apply andb_true_iff in H as [Hc Hp]. apply N.eqb_eq in Hc as ->.
    destruct (IH _ Hp) as [r ->]. now exists r.
Qed.

Lemma startswith_mono p u v :
  startswith p u = true -> startswith p (u ++ v) = true.
Proof.
  intros H. destruct (startswith_inv _ _ H) as [r ->].
  rewrite <- app_assoc. apply startswith_app.
Qed.


Lemma contains_here w s : startswith w s = true -> contains w s = true.
Proof. intros H. destruct s; simpl in *; now rewrite H. Qed.

Lemma contains_cons w c s : contains w s = true -> contains w (c :: s) = true.
Proof. intros H. simpl. rewrite H. apply orb_true_r. Qed.

Lemma contains_app_r w u v : contains w v = true -> contains w (u ++ v) = true.
Proof.
  intros H. induction u as [|c u IH]; [exact H|].
  simpl app. now apply contains_cons.
Qed.

Lemma contains_app_l w u v : contains w u = true -> contains w (u ++ v) = true.
Proof.
  induction u as [|c u IH]; intros H.
  - simpl in H. rewrite orb_false_r in H.
    apply contains_here. now apply (startswith_mono w [] v).
  - simpl in H. apply orb_true_iff in H as [H|H].
    + apply contains_here. now apply (startswith_mono w (c :: u) v).
    + simpl app. apply contains_cons. now apply IH.
Qed.

Lemma contains_occurrence w u v : contains w (u ++ w ++ v) = true.
Proof. apply contains_app_r, contains_here, startswith_app. Qed.

Lemma not_contains_app w u v :
  contains w (u ++ v) = false -> contains w u = false /\ contains w v = false.
Proof.
  intros H. split.
  - destruct (contains w u) eqn:E; [|reflexivity].
    now rewrite (contains_app_l _ _ v E) in H.
  - destruct (contains w v) eqn:E; [|reflexivity].
    now rewrite (contains_app_r _ u _ E) in H.
Qed.


(** [split] and [join] are inverse to each other on lines. *)

Lemma split_nonempty sep s : split sep s <> [].
Proof.
  destruct s as [|c s]; simpl; [discriminate|].
  destruct (c =? sep); [discriminate|].
  destruct (split sep s); discriminate.
Qed.

Lemma join_cons sep l l' ls :
  join sep (l :: l' :: ls) = l ++ sep ++ join sep (l' :: ls).
Proof. reflexivity. Qed.

Lemma join_split s : join [NL] (split NL s) = s.
Proof.
  induction s as [|c s IH]; [reflexivity|].
  simpl split. destruct (c =? NL) eqn:E.
  - apply N.eqb_eq in E as ->.
    destruct (split NL s) as [|l ls] eqn:Es; [now destruct (split_nonempty NL s)|].
    rewrite join_cons, IH. reflexivity.
  - destruct (split NL s) as [|l ls] eqn:Es; [now destruct (split_nonempty NL s)|].
    rewrite <- IH. destruct ls; reflexivity.
Qed.

Lemma split_line l : free_of NL l = true -> split NL l = [l].
Proof.
  induction l as [|c l IH]; intros H; [reflexivity|].
  simpl in H. apply andb_true_iff in H as [Hc Hl].
  simpl. apply negb_true_iff in Hc. rewrite Hc, (IH Hl). reflexivity.
Qed.

Lemma split_line_app l s :
  free_of NL l = true ->
  split NL (l ++ NL :: s) = l :: split NL s.
Proof.
  induction l as [|c l IH]; intros H.
  - reflexivity.
  - simpl in H. apply andb_true_iff in H as [Hc Hl].
    simpl. apply negb_true_iff in Hc. rewrite Hc, (IH Hl). reflexivity.
Qed.

Lemma split_join ls :
  ls <> [] -> forallb (free_of NL) ls = true ->
  split NL (join [NL] ls) = ls.
Proof.
  induction ls as [|l ls IH]; intros Hne H; [congruence|].
  simpl in H. apply andb_true_iff in H as [Hl Hls].
  destruct ls as [|l' ls].
  - simpl. now apply split_line.
  - rewrite join_cons.
    etransitivity; [exact (split_line_app l (join [NL] (l' :: ls)) Hl)|].
    rewrite IH; [reflexivity|discriminate|exact Hls].
Qed.

(** [strip] on a line made of indentation, content and trailing space. *)

Lemma lstrip_space w s : all_space w = true -> lstrip (w ++ s) = lstrip s.
Proof.
  induction w as [|c w IH]; intros H; [reflexivity|].
  simpl in H. apply andb_true_iff in H as [Hc Hw].
  simpl. rewrite Hc. now apply IH.
Qed.

Lemma lstrip_visible c s : isspace c = false -> lstrip (c :: s) = c :: s.
Proof. intros H. simpl. now rewrite H. Qed.

Lemma all_space_rev w : all_space (rev w) = all_space w.
Proof.
  unfold all_space. induction w as [|c w IH]; [reflexivity|].
  simpl. rewrite forallb_app, IH. simpl. rewrite andb_true_r. apply andb_comm.
Qed.

Lemma rstrip_space s c w :
  isspace c = false -> all_space w = true ->
  rstrip (s ++ c :: w) = s ++ [c].
Proof.
  intros Hc Hw. unfold rstrip.
  rewrite rev_app_distr. simpl rev. rewrite <- !app_assoc.
  rewrite lstrip_space by now rewrite all_space_rev.
  simpl app. rewrite lstrip_visible by exact Hc.
  simpl rev. now rewrite rev_involutive.
Qed.



End StrFacts.

(** ** The matcher *)

Section Matcher.

Import Re.

Lemma compile_log_line :
  compile "^\s*console\.log\([^)]*\);\s*$" = line_rule LOG.
Proof. reflexivity. Qed.

Lemma compile_warn_line :
  compile "^\s*console\.warn\([^)]*\);\s*$" = line_rule WARN.
Proof. reflexivity. Qed.

Lemma compile_log_inline :
  compile "console\.log\([^)]*\);\s*" = inline_rule LOG.
Proof. reflexivity. Qed.

Lemma compile_warn_inline :
  compile "console\.warn\([^)]*\);\s*" = inline_rule WARN.
Proof. reflexivity. Qed.

Lemma compile_catch :
  compile "\.catch\([^)]*console\.log\([^)]*\)[^)]*\)" = catch_rule.
Proof. reflexivity. Qed.

Lemma compile_collapse : compile "\n\s*\n\s*\n" = collapse_rule.
Proof. reflexivity. Qed.

Lemma prev_after_app prev m1 m2 :
  prev_after prev (m1 ++ m2) = prev_after (prev_after prev m1) m2.
Proof. revert prev. induction m1 as [|c m1 IH]; intros prev; simpl; auto. Qed.

Lemma prev_after_snoc prev m c : prev_after prev (m ++ [c]) = Some c.
Proof. now rewrite prev_after_app. Qed.


(** *** A sequence of literal characters *)

Lemma rmatch_lits ml w p prev s :
  rmatch ml (lits w ++ p) prev (w ++ s) = rmatch ml p (prev_after prev w) s.
Proof.
  revert prev. induction w as [|c w IH]; intros prev; [reflexivity|].
  simpl. rewrite N.eqb_refl. apply IH.
Qed.

Lemma rmatch_lits_inv ml w p prev s r :
  rmatch ml (lits w ++ p) prev s = Some r ->
  exists s', s = w ++ s' /\ rmatch ml p (prev_after prev w) s' = Some r.
Proof.
  revert prev s. induction w as [|c w IH]; intros prev s H.
  - now exists s.
  - simpl in H. destruct s as [|x s]; [discriminate|].
    destruct (x =? c) eqn:E; [|discriminate].
    apply N.eqb_eq in E as ->.
    destruct (IH _ _ H) as (s' & -> & H'). now exists s'.
Qed.

Lemma rmatch_lits_startswith ml w p prev s r :
  rmatch ml (lits w ++ p) prev s = Some r -> Str.startswith w s = true.
Proof.
  intros H. destruct (rmatch_lits_inv _ _ _ _ _ _ H) as (s' & -> & _).
  apply startswith_app.
Qed.

(** *** Greedy repetition *)

Lemma greedy_stop k cont prev s :
  starts_outside k s = true -> greedy k cont prev s = cont prev s.
Proof.
  destruct s as [|c s]; simpl; [reflexivity|].
  intros H. apply negb_true_iff in H. now rewrite H.
Qed.

Lemma greedy_inv k cont prev s r :
  greedy k cont prev s = Some r ->
  exists w s', s = w ++ s' /\ forallb (in_class k) w = true /\
               cont (prev_after prev w) s' = Some r.
Proof.
  revert prev. induction s as [|c s IH]; intros prev H.
  - exists [], []. auto.
  - simpl in H. destruct (in_class k c) eqn:Ec.
    + destruct (greedy k cont (Some c) s) as [r'|] eqn:Eg.
      * injection H as <-. destruct (IH _ Eg) as (w & s' & -> & Hw & Hc).
        exists (c :: w), s'. simpl. rewrite Ec. auto.
      * exists [], (c :: s). auto.
    + exists [], (c :: s). auto.
Qed.

(** The repetition gives back characters until the continuation
    matches: if it matches after [w] and at no later position, the
    match is the one after [w]. *)
Lemma greedy_first k cont prev w s r :
  forallb (in_class k) w = true ->
  cont (prev_after prev w) s = Some r ->
  (forall w' s', s = w' ++ s' -> w' <> [] ->
                 forallb (in_class k) w' = true ->
                 cont (prev_after prev (w ++ w')) s' = None) ->
  greedy k cont prev (w ++ s) = Some r.
Proof.
  revert prev. induction w as [|c w IH]; intros prev Hw Hc Hlater.
  - simpl in *. destruct s as [|c s]; [exact Hc|]. simpl.
    destruct (in_class k c) eqn:Ec; [|exact Hc].
    destruct (greedy k cont (Some c) s) as [r'|] eqn:Eg; [|exact Hc].
    destruct (greedy_inv _ _ _ _ _ Eg) as (w' & s' & -> & Hw' & Hc').
    assert (X : cont (prev_after prev ([] ++ c :: w')) s' = None).
    { apply Hlater; [reflexivity|discriminate|]. simpl. now rewrite Ec. }
    simpl in X. congruence.
  - simpl in Hw. apply andb_true_iff in Hw as [Hk Hw].
    simpl. rewrite Hk. rewrite (IH (Some c)); auto.
Qed.

Lemma starts_outside_split k s w' s' :
  starts_outside k s = true -> s = w' ++ s' -> w' <> [] ->
  forallb (in_class k) w' = true -> False.
Proof.
  intros Hs -> Hne Hw. destruct w' as [|c w']; [congruence|].
  simpl in *. apply andb_true_iff in Hw as [Hc _].
  rewrite Hc in Hs. discriminate.
Qed.

(** The longest repetition is the match when the continuation accepts
    what follows it. *)
Lemma greedy_max k cont prev w s r :
  forallb (in_class k) w = true -> starts_outside k s = true ->
  cont (prev_after prev w) s = Some r ->
  greedy k cont prev (w ++ s) = Some r.
Proof.
  intros Hw Hs Hc. apply greedy_first; auto.
  intros w' s' E Hne Hw'. destruct (starts_outside_split _ _ _ _ Hs E Hne Hw').
Qed.

(** A repetition followed by something that cannot start inside the
    class does not backtrack. *)
Lemma greedy_exact k cont prev w s :
  forallb (in_class k) w = true -> starts_outside k s = true ->
  (forall q c t, in_class k c = true -> cont q (c :: t) = None) ->
  greedy k cont prev (w ++ s) = cont (prev_after prev w) s.
Proof.
  intros Hw Hs Hcont. revert prev.
  induction w as [|c w IH]; intros prev.
  - simpl. now apply greedy_stop.
  - simpl in Hw. apply andb_true_iff in Hw as [Hk Hw].
    simpl. rewrite Hk, (IH Hw).
    destruct (cont (prev_after (Some c) w) s); [reflexivity|].
    now apply Hcont.
Qed.

Lemma one_lit_outside ml k c p q x t :
  in_class k c = false -> in_class k x = true ->
  rmatch ml (One (Lit c) :: p) q (x :: t) = None.
Proof.
  intros Hc Hx. simpl. destruct (x =? c) eqn:E; [|reflexivity].
  apply N.eqb_eq in E as ->. congruence.
Qed.

Lemma greedy_ext k cont cont' prev prev' s :
  (forall q q' t, cont q t = cont' q' t) ->
  greedy k cont prev s = greedy k cont' prev' s.
Proof.
  intros H. revert prev prev'. induction s as [|c s IH]; intros prev prev'.
  - apply H.
  - simpl. rewrite (IH (Some c) (Some c)), (H prev prev'). reflexivity.
Qed.

(** *** Patterns without [^] do not look behind *)

Lemma rmatch_prev ml p prev prev' s :
  no_bol p = true -> rmatch ml p prev s = rmatch ml p prev' s.
Proof.
  revert prev prev' s. induction p as [|a p IH]; intros prev prev' s H.
  - reflexivity.
  - simpl in H. apply andb_true_iff in H as [Ha Hp].
    destruct a as [k|k| |]; simpl.
    + destruct s as [|c s]; reflexivity.
    + apply greedy_ext. intros q q' t. now apply IH.
    + discriminate.
    + destruct (at_eol ml s); [now apply IH|reflexivity].
Qed.

Lemma sub_from_prev ml p repl prev prev' skip s :
  no_bol p = true ->
  sub_from ml p repl prev skip s = sub_from ml p repl prev' skip s.
Proof.
  intros Hp. revert prev prev' skip.
  induction s as [|c s IH]; intros prev prev' skip.
  - simpl. destruct skip; [|reflexivity].
    now rewrite (rmatch_prev ml p prev prev').
  - simpl. destruct skip; [|reflexivity].
    now rewrite (rmatch_prev ml p prev prev').
Qed.

(** *** The scan of [re.sub] *)

Lemma sub_skip ml p repl prev m rest :
  sub_from ml p repl prev (length m) (m ++ rest)
  = sub_from ml p repl (prev_after prev m) O rest.
Proof.
  revert prev. induction m as [|c m IH]; intros prev.
  - reflexivity.
  - simpl. apply IH.
Qed.

Lemma sub_hit ml p repl prev m rest :
  rmatch ml p prev (m ++ rest) = Some rest -> m <> [] ->
  sub_from ml p repl prev O (m ++ rest)
  = repl ++ sub_from ml p repl (prev_after prev m) O rest.
Proof.
  intros H Hne. destruct m as [|c m]; [congruence|].
  change ((c :: m) ++ rest) with (c :: (m ++ rest)) in *.
  cbn [sub_from]. rewrite H.
  replace (length (c :: m ++ rest) - length rest)%nat with (S (length m))
    by (cbn [length]; rewrite length_app; lia).
  now rewrite sub_skip.
Qed.

Lemma sub_miss ml p repl prev c s :
  rmatch ml p prev (c :: s) = None ->
  sub_from ml p repl prev O (c :: s)
  = c :: sub_from ml p repl (Some c) O s.
Proof. intros H. cbn [sub_from]. now rewrite H. Qed.

Lemma sub_end ml p repl prev :
  rmatch ml p prev [] = None -> sub_from ml p repl prev O [] = [].
Proof. intros H. cbn [sub_from]. now rewrite H. Qed.

(** Where no match starts, the text is copied. *)
Lemma sub_scan ml p repl prev pre rest :
  (forall u v, pre = u ++ v -> v <> [] ->
               rmatch ml p (prev_after prev u) (v ++ rest) = None) ->
  sub_from ml p repl prev O (pre ++ rest)
  = pre ++ sub_from ml p repl (prev_after prev pre) O rest.
Proof.
  revert prev. induction pre as [|c pre IH]; intros prev H.
  - reflexivity.
  - change ((c :: pre) ++ rest) with (c :: (pre ++ rest)).
    rewrite sub_miss by (apply (H [] (c :: pre)); [reflexivity|discriminate]).
    simpl. f_equal. apply IH. intros u v -> Hv.
    apply (H (c :: u) v); [reflexivity|exact Hv].
Qed.

Lemma sub_id ml p repl prev s :
  (forall u v, s = u ++ v -> rmatch ml p (prev_after prev u) v = None) ->
  sub_from ml p repl prev O s = s.
Proof.
  intros H. rewrite <- (app_nil_r s) at 1. rewrite sub_scan.
  - rewrite sub_end; [apply app_nil_r|].
    apply (H s []). now rewrite app_nil_r.
  - intros u v -> Hv. rewrite app_nil_r. now apply H.
Qed.

End Matcher.

(** ** Occurrences *)

Section Occurrences.

Import Str.

Lemma occs_from_here g i u v :
  startswith g v = true -> In (i + length u)%nat (occs_from g i (u ++ v)).
Proof.
  revert i. induction u as [|c u IH]; intros i H.
  - simpl app. rewrite Nat.add_0_r.
    destruct v; simpl in *; rewrite H; now left.
  - simpl app. cbn [occs_from]. apply in_or_app. right.
    replace (i + length (c :: u))%nat with (S i + length u)%nat
      by (cbn [length]; lia).
    now apply IH.
Qed.

Lemma occ_at g t u v :
  t = u ++ v -> startswith g v = true -> In (length u) (occs g t).
Proof. intros -> H. apply (occs_from_here g O u v H). Qed.

Lemma occs_none g t : occs g t = [] -> contains g t = false.
Proof.
  unfold occs. generalize O. induction t as [|c t IH]; intros i H.
  - simpl in *. destruct (startswith g []); [discriminate|reflexivity].
  - cbn [occs_from] in H. apply app_eq_nil in H as [H1 H2].
    cbn [contains]. rewrite (IH _ H2).
    destruct (startswith g (c :: t)); [discriminate|reflexivity].
Qed.

(** When one position holds the only targeted opener of a text, it is
    the only occurrence of its opener and the other opener is absent. *)
Lemma sole_opener fn t n :
  targeted fn -> In n (occs fn t) ->
  occs LOG t ++ occs WARN t = [n] ->
  occs fn t = [n] /\
  forall g, targeted g -> g <> fn -> contains g t = false.
Proof.
  intros [-> | ->] Hin H.
  - destruct (occs LOG t) as [|m l]; [destruct Hin|].
    injection H as -> H. apply app_eq_nil in H as [-> H]. split; [reflexivity|].
    intros g [-> | ->] Hg; [congruence|now apply occs_none].
  - destruct (occs LOG t) as [|m l] eqn:E.
    + split; [exact H|].
      intros g [-> | ->] Hg; [now apply occs_none|congruence].
    + injection H as -> H. apply app_eq_nil in H as [-> H].
      rewrite H in Hin. destruct Hin.
Qed.

Lemma no_opener_inv s :
  no_opener s = true -> forall g, targeted g -> contains g s = false.
Proof.
  unfold no_opener. intros H g Hg.
  apply andb_true_iff in H as [H1 H2].
  apply negb_true_iff in H1, H2. now destruct Hg as [-> | ->].
Qed.

End Occurrences.

(** ** The rules, one match at a time *)

Section Rules.

Import Re.

Lemma rmatch_many ml k p prev s :
  rmatch ml (Many k :: p) prev s = greedy k (rmatch ml p) prev s.
Proof. reflexivity. Qed.

Lemma rmatch_one ml c p prev s :
  rmatch ml (One (Lit c) :: p) prev (c :: s) = rmatch ml p (Some c) s.
Proof. simpl. now rewrite N.eqb_refl. Qed.

Lemma rmatch_one_other ml c p prev s :
  starts_outside (Lit c) s = true -> rmatch ml (One (Lit c) :: p) prev s = None.
Proof.
  destruct s as [|x s]; simpl; [reflexivity|].
  intros H. apply negb_true_iff in H. now rewrite H.
Qed.

(** [[^)]*\)] reads up to the first closing parenthesis. *)
Lemma rmatch_args ml p prev args s :
  free_of RP args = true ->
  rmatch ml (Many (Not RP) :: One (Lit RP) :: p) prev (args ++ RP :: s)
  = rmatch ml p (Some RP) s.
Proof.
  intros Ha. rewrite rmatch_many, greedy_exact.
  - apply rmatch_one.
  - exact Ha.
  - reflexivity.
  - intros q c t Hc. now apply (one_lit_outside ml (Not RP)).
Qed.

(** The end of a call, [[^)]*\);], fails when no [;] follows the
    closing parenthesis. *)
Lemma rmatch_call_unterminated ml p prev args z :
  free_of RP args = true -> starts_outside (Lit SEMI) z = true ->
  rmatch ml (Many (Not RP) :: One (Lit RP) :: One (Lit SEMI) :: p) prev
    (args ++ RP :: z) = None.
Proof.
  intros Ha Hz. rewrite rmatch_args by exact Ha.
  now apply rmatch_one_other.
Qed.

(** [\s*] at the end of a pattern reads all the white space. *)
Lemma rmatch_trailing_space ml prev w b :
  all_space w = true -> starts_visible b = true ->
  rmatch ml [Many Space] prev (w ++ b) = Some b.
Proof.
  intros Hw Hb. rewrite rmatch_many. now apply greedy_max.
Qed.

(** [\s*$] stops at the end of the text, or before the line break
    that ends the last blank line. *)
Lemma rmatch_space_eol_end prev w :
  all_space w = true -> rmatch true [Many Space; Eol] prev w = Some [].
Proof.
  intros Hw. rewrite <- (app_nil_r w), rmatch_many.
  now apply greedy_max.
Qed.

Lemma rmatch_space_eol prev w y b :
  all_space w = true -> isspace y = false ->
  rmatch true [Many Space; Eol] prev (w ++ NL :: y :: b) = Some (NL :: y :: b).
Proof.
  intros Hw Hy. rewrite rmatch_many. apply greedy_first.
  - exact Hw.
  - reflexivity.
  - intros w' s' E Hne Hw'.
    destruct w' as [|c w']; [congruence|].
    injection E as <- E. destruct w' as [|d w'].
    + simpl in E. subst s'. simpl. now rewrite (visible_neqb_NL _ Hy).
    + injection E as <- E. cbn [forallb] in Hw'.
      apply andb_true_iff in Hw' as [_ Hw'].
      apply andb_true_iff in Hw' as [Hw' _].
      change (isspace y = true) in Hw'. congruence.
Qed.

Section Opener.

Variable fn : text.

Lemma inline_rule_hit ml prev args w b :
  free_of RP args = true -> all_space w = true -> starts_visible b = true ->
  rmatch ml (inline_rule fn) prev (fn ++ args ++ RP :: SEMI :: w ++ b)
  = Some b.
Proof.
  intros Ha Hw Hb. unfold inline_rule.
  rewrite rmatch_lits, rmatch_args by exact Ha.
  rewrite rmatch_one. now apply rmatch_trailing_space.
Qed.

Lemma inline_rule_inv ml prev v r :
  rmatch ml (inline_rule fn) prev v = Some r ->
  exists v', v = fn ++ v' /\
    rmatch ml [Many (Not RP); One (Lit RP); One (Lit SEMI); Many Space]
      (prev_after prev fn) v' = Some r.
Proof. apply rmatch_lits_inv. Qed.

Lemma line_rule_inv prev v r :
  rmatch true (line_rule fn) prev v = Some r ->
  at_bol true prev = true /\
  exists w v', v = w ++ fn ++ v' /\ all_space w = true /\
    rmatch true [Many (Not RP); One (Lit RP); One (Lit SEMI);
                 Many Space; Eol] (prev_after prev (w ++ fn)) v' = Some r.
Proof.
  unfold line_rule. intros H. cbn [rmatch] in H.
  destruct (at_bol true prev); [|discriminate]. split; [reflexivity|].
  destruct (greedy_inv _ _ _ _ _ H) as (w & s' & -> & Hw & Hc).
  destruct (rmatch_lits_inv _ _ _ _ _ _ Hc) as (v' & -> & Hr).
  exists w, v'. rewrite prev_after_app. auto.
Qed.

Hypothesis fn_visible : starts_visible fn = true.
Hypothesis fn_nonempty : fn <> [].

Lemma line_rule_hit prev ws1 args ws2 rest :
  at_bol true prev = true ->
  all_space ws1 = true -> free_of RP args = true -> all_space ws2 = true ->
  (rest = [] \/ exists y b, rest = NL :: y :: b /\ isspace y = false) ->
  rmatch true (line_rule fn) prev
    (ws1 ++ fn ++ args ++ RP :: SEMI :: ws2 ++ rest) = Some rest.
Proof.
  intros Hbol H1 Ha H2 Hrest. unfold line_rule. cbn [rmatch]. rewrite Hbol.
  rewrite greedy_exact.
  - rewrite rmatch_lits, rmatch_args by exact Ha. rewrite rmatch_one.
    destruct Hrest as [-> | (y & b & -> & Hy)].
    + rewrite app_nil_r. now apply rmatch_space_eol_end.
    + now apply rmatch_space_eol.
  - exact H1.
  - destruct fn as [|c f]; [congruence|]. exact fn_visible.
  - intros q c t Hc. destruct fn as [|c0 f]; [congruence|].
    apply (one_lit_outside true Space); [|exact Hc].
    simpl in fn_visible. now apply negb_true_iff in fn_visible.
Qed.

End Opener.

(** A match of a rule holds the literal text of the rule. *)

Lemma inline_rule_contains ml fn prev v r :
  rmatch ml (inline_rule fn) prev v = Some r -> Str.contains fn v = true.
Proof.
  intros H. apply contains_here. eapply rmatch_lits_startswith, H.
Qed.

Lemma line_rule_contains fn prev v r :
  rmatch true (line_rule fn) prev v = Some r -> Str.contains fn v = true.
Proof.
  intros H. destruct (line_rule_inv _ _ _ _ H) as (_ & w & v' & -> & _).
  apply contains_occurrence.
Qed.

Lemma catch_rule_inv ml prev v r :
  rmatch ml catch_rule prev v = Some r ->
  exists x v', v = CATCH ++ x ++ LOG ++ v' /\ free_of RP x = true.
Proof.
  unfold catch_rule. intros H.
  destruct (rmatch_lits_inv _ _ _ _ _ _ H) as (s1 & -> & H1).
  rewrite rmatch_many in H1.
  destruct (greedy_inv _ _ _ _ _ H1) as (x & s2 & -> & Hx & H2).
  destruct (rmatch_lits_inv _ _ _ _ _ _ H2) as (v' & -> & _).
  exists x, v'. auto.
Qed.

Lemma catch_rule_contains ml prev v r :
  rmatch ml catch_rule prev v = Some r -> Str.contains LOG v = true.
Proof.
  intros H. destruct (catch_rule_inv _ _ _ _ H) as (x & v' & -> & _).
  rewrite (app_assoc CATCH x). apply contains_occurrence.
Qed.

(** A rule leaves a text without its literal text as it is. *)

Lemma sub_absent ml p repl prev g s :
  (forall q v r, rmatch ml p q v = Some r -> Str.contains g v = true) ->
  Str.contains g s = false ->
  sub_from ml p repl prev O s = s.
Proof.
  intros Hp Hs. apply sub_id. intros u v -> .
  destruct (rmatch ml p (prev_after prev u) v) as [r|] eqn:E; [|reflexivity].
  apply Hp in E. apply not_contains_app in Hs as [_ Hs]. congruence.
Qed.

Lemma line_rule_absent fn repl prev s :
  Str.contains fn s = false -> sub_from true (line_rule fn) repl prev O s = s.
Proof. apply sub_absent. intros q v r. apply line_rule_contains. Qed.

Lemma inline_rule_absent ml fn repl prev s :
  Str.contains fn s = false -> sub_from ml (inline_rule fn) repl prev O s = s.
Proof. apply sub_absent. intros q v r. apply inline_rule_contains. Qed.

Lemma catch_rule_absent ml repl prev s :
  Str.contains LOG s = false -> sub_from ml catch_rule repl prev O s = s.
Proof. apply sub_absent. intros q v r. apply catch_rule_contains. Qed.

End Rules.

(** ** The collapse of blank lines *)

Section Collapse.

Import Re.

Lemma count_nl_cons c w :
  count_nl (c :: w) = ((if (c =? NL)%N then 1 else 0) + count_nl w)%nat.
Proof.
  unfold count_nl. cbn [List.filter]. rewrite (N.eqb_sym NL c).
  destruct (c =? NL); reflexivity.
Qed.

Lemma count_nl_app u v : count_nl (u ++ v) = (count_nl u + count_nl v)%nat.
Proof. unfold count_nl. now rewrite List.filter_app, length_app. Qed.

Lemma leading_space_all s : all_space (leading_space s) = true.
Proof.
  induction s as [|c s IH]; [reflexivity|].
  simpl. destruct (isspace c) eqn:E; [|reflexivity].
  simpl. now rewrite E.
Qed.

Lemma lstrip_visible_start s : starts_visible (Str.lstrip s) = true.
Proof.
  induction s as [|c s IH]; [reflexivity|].
  simpl. destruct (isspace c) eqn:E; [exact IH|].
  simpl. now rewrite E.
Qed.

Lemma leading_lstrip s : s = leading_space s ++ Str.lstrip s.
Proof.
  induction s as [|c s IH]; [reflexivity|].
  simpl. destruct (isspace c); [|reflexivity].
  simpl. now rewrite <- IH.
Qed.

Lemma leading_space_app w r :
  all_space w = true -> leading_space (w ++ r) = w ++ leading_space r.
Proof.
  induction w as [|c w IH]; intros H; [reflexivity|].
  simpl in H. apply andb_true_iff in H as [Hc Hw].
  simpl. now rewrite Hc, IH.
Qed.

Lemma leading_space_visible r : starts_visible r = true -> leading_space r = [].
Proof.
  destruct r as [|c r]; [reflexivity|].
  simpl. intros H. apply negb_true_iff in H. now rewrite H.
Qed.

Lemma lstrip_app w r :
  all_space w = true -> starts_visible r = true -> Str.lstrip (w ++ r) = r.
Proof.
  intros Hw Hr. rewrite lstrip_space by exact Hw.
  destruct r as [|c r]; [reflexivity|].
  simpl in *. apply negb_true_iff in Hr. now rewrite Hr.
Qed.

Lemma after_last_nl_free w : count_nl (after_last_nl w) = O.
Proof.
  induction w as [|c w IH]; [reflexivity|].
  simpl. destruct (0 <? count_nl w)%nat eqn:E; [exact IH|].
  apply Nat.ltb_ge in E.
  destruct (c =? NL) eqn:Ec; [lia|].
  rewrite count_nl_cons, Ec. lia.
Qed.

Lemma after_last_nl_space w : all_space w = true -> all_space (after_last_nl w) = true.
Proof.
  induction w as [|c w IH]; intros H; [reflexivity|].
  simpl in H. apply andb_true_iff in H as [Hc Hw].
  simpl. destruct (0 <? count_nl w)%nat; [now apply IH|].
  destruct (c =? NL); [exact Hw|]. simpl. now rewrite Hc.
Qed.

Lemma after_last_nl_length w : (length (after_last_nl w) <= length w)%nat.
Proof.
  induction w as [|c w IH]; [reflexivity|].
  simpl. destruct (0 <? count_nl w)%nat; [lia|].
  destruct (c =? NL); simpl; lia.
Qed.

(** [\s*\n] after a stretch of white space [w]: up to the last line
    break of [w], if there is one. *)
Lemma rmatch_space_nl prev w r :
  all_space w = true -> starts_visible r = true ->
  rmatch false [Many Space; One (Lit NL)] prev (w ++ r)
  = if (0 <? count_nl w)%nat then Some (after_last_nl w ++ r) else None.
Proof.
  intros Hw Hr. revert prev. induction w as [|c w IH]; intros prev.
  - simpl app. rewrite rmatch_many, greedy_stop by exact Hr.
    apply rmatch_one_other. destruct r as [|x r]; [reflexivity|].
    simpl in *. apply negb_true_iff in Hr.
    now rewrite (visible_neqb_NL _ Hr).
  - simpl in Hw. apply andb_true_iff in Hw as [Hc Hw].
    rewrite rmatch_many. simpl app. cbn [greedy].
    change (in_class Space c) with (isspace c). rewrite Hc.
    rewrite <- rmatch_many, (IH Hw). cbn [after_last_nl].
    rewrite count_nl_cons.
    destruct (0 <? count_nl w)%nat eqn:E.
    + apply Nat.ltb_lt in E.
      replace (0 <? _ + count_nl w)%nat with true
        by (symmetry; apply Nat.ltb_lt; lia).
      reflexivity.
    + apply Nat.ltb_ge in E. simpl rmatch.
      destruct (c =? NL); simpl;
        [reflexivity|]. 
      replace (count_nl w) with O by lia. reflexivity.
Qed.

(** [\s*\n\s*\n] after a stretch of white space [w]: up to the last
    line break of [w], if there are two. *)
Lemma rmatch_space_nl_nl prev w r :
  all_space w = true -> starts_visible r = true ->
  rmatch false [Many Space; One (Lit NL); Many Space; One (Lit NL)] prev (w ++ r)
  = if (1 <? count_nl w)%nat then Some (after_last_nl w ++ r) else None.
Proof.
  intros Hw Hr. revert prev. induction w as [|c w IH]; intros prev.
  - simpl app. rewrite rmatch_many, greedy_stop by exact Hr.
    apply rmatch_one_other. destruct r as [|x r]; [reflexivity|].
    simpl in *. apply negb_true_iff in Hr.
    now rewrite (visible_neqb_NL _ Hr).
  - simpl in Hw. apply andb_true_iff in Hw as [Hc Hw].
    rewrite rmatch_many. simpl app. cbn [greedy].
    change (in_class Space c) with (isspace c). rewrite Hc.
    rewrite <- rmatch_many, (IH Hw). cbn [after_last_nl].
    rewrite count_nl_cons.
    destruct (1 <? count_nl w)%nat eqn:E.
    + apply Nat.ltb_lt in E.
      replace (1 <? _ + count_nl w)%nat with true
        by (symmetry; apply Nat.ltb_lt; lia).
      replace (0 <? count_nl w)%nat with true
        by (symmetry; apply Nat.ltb_lt; lia).
      reflexivity.
    + apply Nat.ltb_ge in E.
      destruct (c =? NL) eqn:Ec.
      * apply N.eqb_eq in Ec as ->. rewrite rmatch_one.
        rewrite (rmatch_space_nl _ _ _ Hw Hr).
        destruct (0 <? count_nl w)%nat eqn:E0.
        -- apply Nat.ltb_lt in E0.
           replace (1 <? 1 + count_nl w)%nat with true
             by (symmetry; apply Nat.ltb_lt; lia).
           reflexivity.
        -- apply Nat.ltb_ge in E0.
           replace (1 <? 1 + count_nl w)%nat with false
             by (symmetry; apply Nat.ltb_ge; lia).
           reflexivity.
      * rewrite rmatch_one_other by (simpl; now rewrite Ec).
        replace (1 <? 0 + count_nl w)%nat with false
          by (symmetry; apply Nat.ltb_ge; lia).
        reflexivity.
Qed.

(** The pattern of the collapse at a line break followed by [s]. *)
Lemma rmatch_collapse prev s :
  rmatch false collapse_rule prev (NL :: s)
  = if (1 <? count_nl (leading_space s))%nat
    then Some (after_last_nl (leading_space s) ++ Str.lstrip s)
    else None.
Proof.
  unfold collapse_rule. rewrite rmatch_one.
  rewrite (leading_lstrip s) at 1.
  apply rmatch_space_nl_nl;
    [apply leading_space_all|apply lstrip_visible_start].
Qed.

Lemma rmatch_collapse_other prev s :
  starts_outside (Lit NL) s = true -> rmatch false collapse_rule prev s = None.
Proof. apply rmatch_one_other. Qed.

End Collapse.

Section CollapseScan.

Import Re.

Lemma rmatch_suffix ml p prev s r :
  rmatch ml p prev s = Some r -> exists m, s = m ++ r.
Proof.
  revert prev s. induction p as [|a p IH]; intros prev s H.
  - injection H as <-. now exists [].
  - destruct a as [k|k| |]; cbn [rmatch] in H.
    + destruct s as [|c s]; [discriminate|].
      destruct (in_class k c); [|discriminate].
      destruct (IH _ _ H) as [m ->]. now exists (c :: m).
    + destruct (greedy_inv _ _ _ _ _ H) as (w & s' & -> & _ & Hc).
      destruct (IH _ _ Hc) as [m ->]. exists (w ++ m). now rewrite app_assoc.
    + destruct (at_bol ml prev); [eauto|discriminate].
    + destruct (at_eol ml s); [eauto|discriminate].
Qed.

Lemma collapse_unfold s :
  collapse_blank_lines s = sub_from false collapse_rule [NL; NL] None O s.
Proof. reflexivity. Qed.


Lemma collapse_other c s :
  c <> NL -> collapse_blank_lines (c :: s) = c :: collapse_blank_lines s.
Proof.
  intros Hc. rewrite !collapse_unfold, sub_miss.
  - f_equal. now apply sub_from_prev.
  - apply rmatch_collapse_other. simpl. apply negb_true_iff.
    now apply N.eqb_neq.
Qed.

Lemma collapse_miss s :
  (count_nl (leading_space s) <= 1)%nat ->
  collapse_blank_lines (NL :: s) = NL :: collapse_blank_lines s.
Proof.
  intros H. rewrite !collapse_unfold, sub_miss.
  - f_equal. now apply sub_from_prev.
  - rewrite rmatch_collapse.
    replace (1 <? _)%nat with false by (symmetry; apply Nat.ltb_ge; lia).
    reflexivity.
Qed.

Lemma collapse_rest_length s :
  (length (after_last_nl (leading_space s) ++ Str.lstrip s) <= length s)%nat.
Proof.
  rewrite (leading_lstrip s) at 3. rewrite !length_app.
  pose proof (after_last_nl_length (leading_space s)). lia.
Qed.

Lemma collapse_hit s :
  (2 <= count_nl (leading_space s))%nat ->
  collapse_blank_lines (NL :: s)
  = NL :: NL ::
    collapse_blank_lines (after_last_nl (leading_space s) ++ Str.lstrip s).
Proof.
  intros H. rewrite !collapse_unfold.
  assert (E : rmatch false collapse_rule None (NL :: s)
              = Some (after_last_nl (leading_space s) ++ Str.lstrip s)).
  { rewrite rmatch_collapse.
    replace (1 <? _)%nat with true by (symmetry; apply Nat.ltb_lt; lia).
    reflexivity. }
  destruct (rmatch_suffix _ _ _ _ _ E) as [m Em].
  rewrite Em in E |- *. rewrite sub_hit.
  - change ([NL; NL] ++ ?x) with (NL :: NL :: x). do 2 f_equal.
    now apply sub_from_prev.
  - exact E.
  - intros ->. simpl in Em. apply (f_equal length) in Em.
    pose proof (collapse_rest_length s). simpl in Em. lia.
Qed.

Lemma blank_ok_lead s :
  blank_ok s = true -> (count_nl (leading_space s) <= 2)%nat.
Proof.
  destruct s as [|c s]; [simpl; unfold count_nl; simpl; lia|].
  cbn [blank_ok]. intros H. apply andb_true_iff in H as [H _].
  now apply Nat.leb_le in H.
Qed.

Lemma leading_space_cons c s :
  leading_space (c :: s) = if isspace c then c :: leading_space s else [].
Proof. reflexivity. Qed.

(** A text without a stretch of white space of three line breaks is
    left as it is. *)
Lemma collapse_fixed t : blank_ok t = true -> collapse_blank_lines t = t.
Proof.
  induction t as [|c t IH]; intros H; [reflexivity|].
  pose proof (blank_ok_lead _ H) as Hl.
  cbn [blank_ok] in H. apply andb_true_iff in H as [_ H].
  destruct (N.eq_dec c NL) as [->|Hc].
  - rewrite leading_space_cons, isspace_NL, count_nl_cons in Hl.
    simpl in Hl. rewrite collapse_miss by lia. now rewrite IH.
  - rewrite collapse_other by exact Hc. now rewrite IH.
Qed.

(** The result of the collapse has no such stretch. *)
Lemma collapse_blank_ok_aux n : forall s, (length s <= n)%nat ->
  blank_ok (collapse_blank_lines s) = true /\
  (count_nl (leading_space (collapse_blank_lines s))
   <= count_nl (leading_space s))%nat.
Proof.
  induction n as [|n IH]; intros s Hn.
  - destruct s; [|simpl in Hn; lia]. split; reflexivity.
  - destruct s as [|c s]; [split; reflexivity|].
    simpl in Hn. assert (Hs : (length s <= n)%nat) by lia.
    destruct (N.eq_dec c NL) as [->|Hc].
    + destruct (le_lt_dec (count_nl (leading_space s)) 1) as [Hm|Hh].
      * rewrite collapse_miss by exact Hm.
        destruct (IH s Hs) as [Hok Hle].
        cbn [blank_ok]. rewrite !leading_space_cons, isspace_NL, !count_nl_cons.
        simpl. split; [|lia].
        rewrite Hok, andb_true_r. apply Nat.leb_le. lia.
      * rewrite collapse_hit by exact Hh.
        set (rest := after_last_nl (leading_space s) ++ Str.lstrip s).
        assert (Hr : (length rest <= n)%nat)
          by (pose proof (collapse_rest_length s); unfold rest; lia).
        destruct (IH rest Hr) as [Hok Hle].
        assert (H0 : count_nl (leading_space rest) = O).
        { unfold rest. rewrite leading_space_app
            by apply after_last_nl_space, leading_space_all.
          rewrite (leading_space_visible _ (lstrip_visible_start s)), app_nil_r.
          apply after_last_nl_free. }
        rewrite H0 in Hle.
        cbn [blank_ok]. rewrite !leading_space_cons, isspace_NL, !count_nl_cons.
        simpl. split; [|lia].
        rewrite Hok, andb_true_r.
        replace (count_nl (leading_space (collapse_blank_lines rest))) with O by lia.
        reflexivity.
    + rewrite collapse_other by exact Hc.
      destruct (IH s Hs) as [Hok Hle].
      pose proof (blank_ok_lead _ Hok) as Hl.
      cbn [blank_ok]. rewrite !leading_space_cons.
      destruct (isspace c).
      * rewrite !count_nl_cons.
        replace (c =? NL) with false by (symmetry; now apply N.eqb_neq).
        simpl. split; [|lia]. rewrite Hok, andb_true_r. apply Nat.leb_le. lia.
      * split; [|lia]. now rewrite Hok.
Qed.

Lemma collapse_blank_ok s : blank_ok (collapse_blank_lines s) = true.
Proof. now apply (collapse_blank_ok_aux (length s)). Qed.

Lemma blank_ok_suffix u t : blank_ok (u ++ t) = true -> blank_ok t = true.
Proof.
  induction u as [|c u IH]; [auto|].
  simpl app. cbn [blank_ok]. intros H.
  apply andb_true_iff in H as [_ H]. now apply IH.
Qed.

Lemma blank_ok_segment u w v :
  blank_ok (u ++ w ++ v) = true -> all_space w = true ->
  (count_nl w <= 2)%nat.
Proof.
  intros H Hw. apply blank_ok_suffix, blank_ok_lead in H.
  rewrite leading_space_app, count_nl_app in H by exact Hw. lia.
Qed.

End CollapseScan.

Section CollapseLines.

Import Str.

Lemma ends_visible_inv a :
  ends_visible a = true ->
  a = [] \/ exists a0 x, a = a0 ++ [x] /\ isspace x = false.
Proof.
  unfold ends_visible. destruct (rev a) as [|x r] eqn:E; intros H.
  - left. apply (f_equal (@rev N)) in E. now rewrite rev_involutive in E.
  - right. exists (rev r), x. split.
    + apply (f_equal (@rev N)) in E. now rewrite rev_involutive in E.
    + simpl in H. now apply negb_true_iff in H.
Qed.

Lemma leading_space_snoc_visible a x r :
  isspace x = false ->
  leading_space ((a ++ [x]) ++ r) = leading_space (a ++ [x]).
Proof.
  intros Hx. induction a as [|c a IH]; simpl.
  - now rewrite Hx.
  - destruct (isspace c); [now rewrite IH|reflexivity].
Qed.

Lemma lstrip_snoc_visible a x r :
  isspace x = false ->
  lstrip ((a ++ [x]) ++ r) = lstrip (a ++ [x]) ++ r.
Proof.
  intros Hx. induction a as [|c a IH]; simpl.
  - now rewrite Hx.
  - destruct (isspace c); [exact IH|reflexivity].
Qed.

Lemma lstrip_snoc a x :
  isspace x = false -> exists k, lstrip (a ++ [x]) = k ++ [x].
Proof.
  intros Hx. induction a as [|c a IH]; simpl.
  - rewrite Hx. now exists [].
  - destruct (isspace c); [exact IH|]. now exists (c :: a).
Qed.

(** The collapse works on each side of a visible character on its own. *)
Lemma collapse_app_aux n : forall a x r,
  (length a <= n)%nat -> isspace x = false ->
  collapse_blank_lines ((a ++ [x]) ++ r)
  = collapse_blank_lines (a ++ [x]) ++ collapse_blank_lines r.
Proof.
  induction n as [|n IH]; intros a x r Hn Hx.
  - destruct a; [|simpl in Hn; lia]. simpl app.
    rewrite !collapse_other by now apply visible_not_NL. reflexivity.
  - destruct a as [|c a].
    + simpl app.
      rewrite !collapse_other by now apply visible_not_NL. reflexivity.
    + simpl in Hn. assert (Ha : (length a <= n)%nat) by lia.
      change (((c :: a) ++ [x]) ++ r) with (c :: ((a ++ [x]) ++ r)).
      change ((c :: a) ++ [x]) with (c :: (a ++ [x])).
      destruct (N.eq_dec c NL) as [->|Hc].
      * destruct (le_lt_dec (count_nl (leading_space (a ++ [x]))) 1) as [Hm|Hh].
        -- rewrite (collapse_miss (a ++ [x])) by exact Hm.
           rewrite collapse_miss by now rewrite leading_space_snoc_visible.
           rewrite (IH a x r Ha Hx). reflexivity.
        -- rewrite (collapse_hit (a ++ [x])) by exact Hh.
           rewrite collapse_hit by now rewrite leading_space_snoc_visible.
           rewrite leading_space_snoc_visible, lstrip_snoc_visible by exact Hx.
           destruct (lstrip_snoc a x Hx) as [k Ek].
           pose proof (collapse_rest_length (a ++ [x])) as Hl.
           rewrite Ek in Hl |- *. rewrite !length_app in Hl. simpl in Hl.
           set (al := after_last_nl (leading_space (a ++ [x]))) in *.
           rewrite (app_assoc al (k ++ [x]) r), (app_assoc al k [x]).
           rewrite (IH (al ++ k) x r); [reflexivity| |exact Hx].
           rewrite length_app. lia.
      * rewrite !collapse_other by exact Hc.
        rewrite (IH a x r Ha Hx). reflexivity.
Qed.

Lemma collapse_app a r :
  ends_visible a = true ->
  collapse_blank_lines (a ++ r)
  = collapse_blank_lines a ++ collapse_blank_lines r.
Proof.
  intros H. destruct (ends_visible_inv _ H) as [->|(a0 & x & -> & Hx)].
  - reflexivity.
  - now apply (collapse_app_aux (length a0)).
Qed.


(** *** The lines that are not blank survive the collapse *)

Lemma nonblank_nil : nonblank [] = false.
Proof. reflexivity. Qed.

Lemma split_cons_nl s : split NL (NL :: s) = [] :: split NL s.
Proof. reflexivity. Qed.

Lemma split_cons_other c s :
  c <> NL ->
  exists l ls, split NL s = l :: ls /\ split NL (c :: s) = (c :: l) :: ls.
Proof.
  intros Hc. simpl. apply N.eqb_neq in Hc. rewrite Hc.
  destruct (split NL s) as [|l ls] eqn:E; [now destruct (split_nonempty NL s)|].
  now exists l, ls.
Qed.

Lemma first_line_blank w r :
  all_space w = true -> (1 <= count_nl w)%nat ->
  exists l ls, split NL (w ++ r) = l :: ls /\ all_space l = true.
Proof.
  induction w as [|c w IH]; intros Hw Hn.
  - unfold count_nl in Hn. simpl in Hn. lia.
  - simpl in Hw. apply andb_true_iff in Hw as [Hc Hw].
    destruct (N.eq_dec c NL) as [->|Hne].
    + exists [], (split NL (w ++ r)). split; reflexivity.
    + rewrite count_nl_cons in Hn.
      replace (c =? NL) with false in Hn by (symmetry; now apply N.eqb_neq).
      destruct (IH Hw) as (l & ls & E & Hl); [simpl in Hn; lia|].
      destruct (split_cons_other c (w ++ r) Hne) as (l' & ls' & E1 & E2).
      rewrite E in E1. injection E1 as <- <-.
      exists (c :: l), ls. split; [exact E2|]. simpl. now rewrite Hc.
Qed.

Lemma split_blank_prefix w r :
  all_space w = true -> (1 <= count_nl w)%nat ->
  List.filter nonblank (split NL (w ++ r))
  = List.filter nonblank (split NL (after_last_nl w ++ r)).
Proof.
  induction w as [|c w IH]; intros Hw Hn.
  - unfold count_nl in Hn. simpl in Hn. lia.
  - simpl in Hw. apply andb_true_iff in Hw as [Hc Hw].
    cbn [after_last_nl].
    destruct (0 <? count_nl w)%nat eqn:E.
    + apply Nat.ltb_lt in E. rewrite <- (IH Hw) by lia.
      destruct (N.eq_dec c NL) as [->|Hne].
      * simpl app. rewrite split_cons_nl. reflexivity.
      * destruct (first_line_blank w r Hw) as (l & ls & E1 & Hl); [lia|].
        destruct (split_cons_other c (w ++ r) Hne) as (l' & ls' & E2 & E3).
        rewrite E1 in E2. injection E2 as <- <-.
        simpl app. rewrite E3, E1. cbn [List.filter]. unfold nonblank.
        simpl all_space. fold (all_space l). now rewrite Hc, Hl.
    + apply Nat.ltb_ge in E. rewrite count_nl_cons in Hn.
      destruct (c =? NL) eqn:Ec; [|simpl in Hn; lia].
      apply N.eqb_eq in Ec as ->. simpl app. rewrite split_cons_nl.
      reflexivity.
Qed.

Lemma collapse_lines_aux n : forall s, (length s <= n)%nat ->
  exists l ls ls',
    split NL s = l :: ls /\
    split NL (collapse_blank_lines s) = l :: ls' /\
    List.filter nonblank ls = List.filter nonblank ls'.
Proof.
  induction n as [|n IH]; intros s Hn.
  - destruct s; [|simpl in Hn; lia]. now exists [], [], [].
  - destruct s as [|c s]; [now exists [], [], []|].
    simpl in Hn. assert (Hs : (length s <= n)%nat) by lia.
    destruct (N.eq_dec c NL) as [->|Hc].
    + destruct (le_lt_dec (count_nl (leading_space s)) 1) as [Hm|Hh].
      * rewrite collapse_miss by exact Hm.
        destruct (IH s Hs) as (l & ls & ls' & E1 & E2 & E3).
        exists [], (l :: ls), (l :: ls').
        rewrite !split_cons_nl, E1, E2. repeat split.
        cbn [List.filter]. now rewrite E3.
      * rewrite collapse_hit by exact Hh.
        set (rest := after_last_nl (leading_space s) ++ lstrip s).
        assert (Hr : (length rest <= n)%nat)
          by (pose proof (collapse_rest_length s); unfold rest; lia).
        destruct (IH rest Hr) as (l & ls & ls' & E1 & E2 & E3).
        exists [], (split NL s), ([] :: l :: ls').
        rewrite !split_cons_nl, E2. repeat split.
        rewrite (leading_lstrip s) at 1.
        rewrite split_blank_prefix by (try apply leading_space_all; lia).
        fold rest. rewrite E1. cbn [List.filter]. rewrite nonblank_nil.
        now rewrite E3.
    + rewrite collapse_other by exact Hc.
      destruct (IH s Hs) as (l & ls & ls' & E1 & E2 & E3).
      destruct (split_cons_other c s Hc) as (l1 & ls1 & F1 & F2).
      destruct (split_cons_other c (collapse_blank_lines s) Hc)
        as (l2 & ls2 & G1 & G2).
      rewrite E1 in F1. injection F1 as <- <-.
      rewrite E2 in G1. injection G1 as <- <-.
      exists (c :: l), ls, ls'. auto.
Qed.

Lemma collapse_lines s :
  List.filter nonblank (split NL (collapse_blank_lines s))
  = List.filter nonblank (split NL s).
Proof.
  destruct (collapse_lines_aux (length s) s) as (l & ls & ls' & E1 & E2 & E3);
    [lia|].
  rewrite E1, E2. cbn [List.filter]. now rewrite E3.
Qed.

End CollapseLines.

(** ** The stages of [remove_console_text] *)

Section Stages.

Import Re.

Lemma remove_console_stages s :
  remove_console_text s
  = collapse_blank_lines
      (neutralize_catch
         (strip_inline WARN
            (strip_inline LOG (strip_line WARN (strip_line LOG s))))).
Proof. reflexivity. Qed.

Lemma strip_line_absent fn s : Str.contains fn s = false -> strip_line fn s = s.
Proof. apply line_rule_absent. Qed.

Lemma strip_inline_absent fn s : Str.contains fn s = false -> strip_inline fn s = s.
Proof. apply inline_rule_absent. Qed.

Lemma neutralize_catch_absent s :
  Str.contains LOG s = false -> neutralize_catch s = s.
Proof. apply catch_rule_absent. Qed.

(** Without targeted opener only the collapse of blank lines is left. *)
Lemma remove_console_no_opener s :
  no_opener s = true -> remove_console_text s = collapse_blank_lines s.
Proof.
  intros H. pose proof (no_opener_inv _ H) as Hg.
  rewrite remove_console_stages.
  rewrite (strip_line_absent LOG) by (apply Hg; now left).
  rewrite (strip_line_absent WARN) by (apply Hg; now right).
  rewrite (strip_inline_absent LOG) by (apply Hg; now left).
  rewrite (strip_inline_absent WARN) by (apply Hg; now right).
  rewrite neutralize_catch_absent by (apply Hg; now left).
  reflexivity.
Qed.

Lemma sole_position g t n u v :
  occs g t = [n] -> t = u ++ v -> Str.startswith g v = true -> length u = n.
Proof.
  intros Ho Et Hv. pose proof (occ_at g t u v Et Hv) as Hin.
  rewrite Ho in Hin. destruct Hin as [<-|[]]. reflexivity.
Qed.

Lemma prev_after_in x k :
  exists z, prev_after (Some x) k = Some z /\ (z = x \/ In z k).
Proof.
  revert x. induction k as [|c k IH]; intros x.
  - exists x. auto.
  - destruct (IH c) as (z & E & Hz). exists z. simpl.
    split; [exact E|]. destruct Hz as [Hz|Hz]; auto.
Qed.

Lemma free_of_in c s z : free_of c s = true -> In z s -> z <> c.
Proof.
  unfold free_of. rewrite forallb_forall. intros H Hin ->.
  specialize (H _ Hin). rewrite N.eqb_refl in H. discriminate.
Qed.

Lemma all_space_in w z : all_space w = true -> In z w -> isspace z = true.
Proof. unfold all_space. rewrite forallb_forall. auto. Qed.

Section Opener.

Variable fn : text.
Hypothesis fn_visible : starts_visible fn = true.
Hypothesis fn_nonempty : fn <> [].

Lemma fn_length : (0 < length fn)%nat.
Proof. destruct fn; [congruence|simpl; lia]. Qed.

(** The inline rule removes the call that is the only occurrence
    of its opener, with the white space after it. *)
Lemma strip_inline_hit a args w b :
  free_of RP args = true -> all_space w = true -> starts_visible b = true ->
  occs fn (a ++ fn ++ args ++ RP :: SEMI :: w ++ b) = [length a] ->
  strip_inline fn (a ++ fn ++ args ++ RP :: SEMI :: w ++ b) = a ++ b.
Proof.
  intros Ha Hw Hb Ho. unfold strip_inline.
  set (t := a ++ fn ++ args ++ RP :: SEMI :: w ++ b) in *.
  set (m := fn ++ args ++ RP :: SEMI :: w).
  assert (Et : t = a ++ m ++ b).
  { unfold t, m. now rewrite <- !app_assoc. }
  pose proof fn_length as Hfn.
  rewrite Et. rewrite sub_scan.
  - f_equal. rewrite sub_hit.
    + simpl. apply sub_id. intros u v -> .
      destruct (rmatch _ _ _ v) as [r|] eqn:E; [|reflexivity].
      apply rmatch_lits_startswith in E.
      assert (L : length (a ++ m ++ u) = length a).
      { apply (sole_position fn t _ _ v Ho); [|exact E].
        rewrite Et. now rewrite <- !app_assoc. }
      unfold m in L. rewrite !length_app in L. lia.
    + unfold m. rewrite <- !app_assoc. simpl.
      now apply inline_rule_hit.
    + unfold m. destruct fn; [congruence|discriminate].
  - intros u v -> Hv.
    destruct (rmatch _ _ _ _) as [r|] eqn:E; [|reflexivity].
    apply rmatch_lits_startswith in E.
    assert (L : length u = length (u ++ v)).
    { apply (sole_position fn t _ _ (v ++ m ++ b) Ho); [|exact E].
      rewrite Et. now rewrite <- !app_assoc. }
    rewrite length_app in L. destruct v; [congruence|simpl in L; lia].
Qed.

End Opener.

End Stages.

Section StageHits.

Import Re.

Lemma targeted_shape fn : targeted fn -> starts_visible fn = true /\ fn <> [].
Proof. intros [-> | ->]; split; (reflexivity || discriminate). Qed.

Lemma LOG_not_WARN : LOG <> WARN.
Proof. discriminate. Qed.

Section Opener.

Variable fn : text.
Hypothesis fn_visible : starts_visible fn = true.
Hypothesis fn_nonempty : fn <> [].

(** A call without [;] after its closing parenthesis is left alone
    by both rules. *)
Lemma strip_line_unterminated p args z :
  free_of RP args = true -> starts_outside (Lit SEMI) z = true ->
  occs fn (p ++ fn ++ args ++ RP :: z) = [length p] ->
  strip_line fn (p ++ fn ++ args ++ RP :: z) = p ++ fn ++ args ++ RP :: z.
Proof.
  intros Ha Hz Ho. unfold strip_line. apply sub_id. intros u v Et.
  destruct (rmatch _ _ _ v) as [r|] eqn:E; [|reflexivity].
  destruct (line_rule_inv _ _ _ _ E) as (_ & w & v' & -> & _ & Hr).
  assert (L : length (u ++ w) = length p).
  { apply (sole_position fn _ _ _ (fn ++ v') Ho);
      [|apply startswith_app].
    rewrite Et. now rewrite <- !app_assoc. }
  rewrite (app_assoc u w) in Et. symmetry in Et.
  apply app_inj_1 in Et as [_ Et]; [|exact L].
  apply app_inv_head in Et. subst v'.
  rewrite rmatch_call_unterminated in Hr by assumption. discriminate.
Qed.

Lemma strip_inline_unterminated p args z :
  free_of RP args = true -> starts_outside (Lit SEMI) z = true ->
  occs fn (p ++ fn ++ args ++ RP :: z) = [length p] ->
  strip_inline fn (p ++ fn ++ args ++ RP :: z) = p ++ fn ++ args ++ RP :: z.
Proof.
  intros Ha Hz Ho. unfold strip_inline. apply sub_id. intros u v Et.
  destruct (rmatch _ _ _ v) as [r|] eqn:E; [|reflexivity].
  destruct (inline_rule_inv _ _ _ _ _ E) as (v' & -> & Hr).
  assert (L : length u = length p).
  { apply (sole_position fn _ _ _ (fn ++ v') Ho);
      [exact Et|apply startswith_app]. }
  symmetry in Et.
  apply app_inj_1 in Et as [_ Et]; [|exact L].
  apply app_inv_head in Et. subst v'.
  rewrite rmatch_call_unterminated in Hr by assumption. discriminate.
Qed.

End Opener.

(** When the text holds one targeted call, the stages before its
    rule and after it do nothing. *)
Lemma remove_console_one fn t t' :
  targeted fn ->
  (forall g, targeted g -> g <> fn -> Str.contains g t = false) ->
  no_opener t' = true ->
  strip_line fn t = t' \/ (strip_line fn t = t /\ strip_inline fn t = t') ->
  remove_console_text t = collapse_blank_lines t'.
Proof.
  intros Hfn Hother Hno Hrule.
  pose proof (no_opener_inv _ Hno) as Hg.
  assert (HL : Str.contains LOG t' = false) by (apply Hg; now left).
  assert (HW : Str.contains WARN t' = false) by (apply Hg; now right).
  rewrite remove_console_stages.
  destruct Hfn as [-> | ->].
  - assert (Ht : Str.contains WARN t = false).
    { apply Hother; [now right|]. intros E. now apply LOG_not_WARN. }
    destruct Hrule as [E1 | [E1 E2]]; rewrite E1.
    + rewrite (strip_line_absent WARN), (strip_inline_absent LOG),
        (strip_inline_absent WARN), neutralize_catch_absent by assumption.
      reflexivity.
    + rewrite (strip_line_absent WARN) by assumption. rewrite E2.
      rewrite (strip_inline_absent WARN), neutralize_catch_absent by assumption.
      reflexivity.
  - assert (Ht : Str.contains LOG t = false).
    { apply Hother; [now left|]. apply LOG_not_WARN. }
    rewrite (strip_line_absent LOG) by assumption.
    destruct Hrule as [E1 | [E1 E2]]; rewrite E1.
    + rewrite (strip_inline_absent LOG), (strip_inline_absent WARN),
        neutralize_catch_absent by assumption.
      reflexivity.
    + rewrite (strip_inline_absent LOG) by assumption. rewrite E2.
      rewrite neutralize_catch_absent by assumption. reflexivity.
Qed.

End StageHits.

(** ** clean_console.py, line by line *)

Section CleanLines.

Import Str.

Lemma clean_lines_acc ls acc :
  clean_lines ls acc = acc ++ concat (map clean_line ls).
Proof.
  revert acc. induction ls as [|l ls IH]; intros acc; simpl.
  - now rewrite app_nil_r.
  - rewrite IH. now rewrite <- app_assoc.
Qed.

Lemma clean_lines_app l1 l2 :
  clean_lines (l1 ++ l2) [] = clean_lines l1 [] ++ clean_lines l2 [].
Proof.
  rewrite !clean_lines_acc. simpl. now rewrite map_app, concat_app.
Qed.

Lemma clean_lines_cons l ls :
  clean_lines (l :: ls) [] = clean_line l ++ clean_lines ls [].
Proof. rewrite !clean_lines_acc. reflexivity. Qed.

Lemma clean_console_lines ls :
  ls <> [] -> forallb (free_of NL) ls = true ->
  clean_console_text (join [NL] ls) = join [NL] (clean_lines ls []).
Proof.
  intros Hne H. unfold clean_console_text. now rewrite split_join.
Qed.

Lemma clean_line_kept line : no_opener line = true -> clean_line line = [line].
Proof.
  unfold no_opener, clean_line. fold LOG WARN. intros H.
  apply andb_true_iff in H as [H1 H2].
  apply negb_true_iff in H1, H2. now rewrite H1, H2.
Qed.

Lemma strip_call ws1 fn args ws2 :
  starts_visible fn = true -> fn <> [] ->
  all_space ws1 = true -> all_space ws2 = true ->
  strip (ws1 ++ fn ++ args ++ RP :: SEMI :: ws2) = fn ++ args ++ [RP; SEMI].
Proof.
  intros Hv Hne H1 H2. unfold strip.
  rewrite lstrip_app; [|exact H1|].
  - replace (fn ++ args ++ RP :: SEMI :: ws2)
      with ((fn ++ args ++ [RP]) ++ SEMI :: ws2)
      by (rewrite <- !app_assoc; reflexivity).
    rewrite rstrip_space by (reflexivity || exact H2).
    now rewrite <- !app_assoc.
  - destruct fn; [congruence|exact Hv].
Qed.

(** A line that is a targeted call with its terminator, between
    indentation and trailing space, is skipped. *)
Lemma clean_line_standalone fn ws1 args ws2 :
  targeted fn -> all_space ws1 = true -> all_space ws2 = true ->
  clean_line (ws1 ++ fn ++ args ++ RP :: SEMI :: ws2) = [].
Proof.
  intros Hfn H1 H2. destruct (targeted_shape _ Hfn) as [Hv Hne].
  unfold clean_line. fold LOG WARN.
  rewrite strip_call by assumption.
  destruct Hfn as [-> | ->].
  - rewrite contains_occurrence, startswith_app. reflexivity.
  - rewrite (contains_occurrence WARN), (startswith_app WARN).
    now rewrite !orb_true_r.
Qed.

(** What a line holds, the text holds. *)
Lemma contains_join g sep ls l :
  In l ls -> contains g l = true -> contains g (join sep ls) = true.
Proof.
  induction ls as [|l0 ls IH]; intros Hin Hl; [destruct Hin|].
  destruct ls as [|l1 ls].
  - destruct Hin as [->|[]]. exact Hl.
  - rewrite join_cons. destruct Hin as [->|Hin].
    + now apply contains_app_l.
    + apply contains_app_r, contains_app_r. now apply IH.
Qed.

Lemma no_opener_line s l :
  no_opener s = true -> In l (split NL s) -> no_opener l = true.
Proof.
  intros Hs Hin. pose proof (no_opener_inv _ Hs) as Hg.
  unfold no_opener. apply andb_true_iff. split; apply negb_true_iff.
  - destruct (contains LOG l) eqn:E; [|reflexivity].
    apply (contains_join LOG [NL] _ _ Hin) in E. rewrite join_split in E.
    rewrite Hg in E; [discriminate|now left].
  - destruct (contains WARN l) eqn:E; [|reflexivity].
    apply (contains_join WARN [NL] _ _ Hin) in E. rewrite join_split in E.
    rewrite Hg in E; [discriminate|now right].
Qed.

Lemma clean_lines_kept ls :
  (forall l, In l ls -> no_opener l = true) -> clean_lines ls [] = ls.
Proof.
  induction ls as [|l ls IH]; intros H; [reflexivity|].
  rewrite clean_lines_cons, clean_line_kept by (apply H; now left).
  simpl. f_equal. apply IH. intros l' Hl'. apply H. now right.
Qed.

(** The text without targeted opener is written back as it was. *)
Lemma clean_console_no_opener s :
  no_opener s = true -> clean_console_text s = s.
Proof.
  intros H. unfold clean_console_text.
  rewrite clean_lines_kept by (intros l; apply no_opener_line; exact H).
  apply join_split.
Qed.

Lemma contains_visible g s :
  all_space g = false -> contains g s = true -> nonblank s = true.
Proof.
  intros Hg Hs. unfold nonblank. apply negb_true_iff.
  destruct (all_space s) eqn:E; [|reflexivity].
  assert (X : forall t, all_space t = true -> startswith g t = true ->
                        all_space g = true).
  { intros t Ht Hst. destruct (startswith_inv _ _ Hst) as [r ->].
    unfold all_space in Ht. rewrite forallb_app in Ht.
    now apply andb_true_iff in Ht as [Ht _]. }
  induction s as [|c s IH].
  - simpl in Hs. rewrite orb_false_r in Hs.
    rewrite (X [] E Hs) in Hg. discriminate.
  - simpl in Hs. apply orb_true_iff in Hs as [Hs|Hs].
    + rewrite (X _ E Hs) in Hg. discriminate.
    + simpl in E. apply andb_true_iff in E as [_ E]. now apply IH.
Qed.

End CleanLines.

(** ** A few more facts on the collapse *)

Section CollapseMore.

Lemma collapse_nl_free a r :
  free_of NL a = true ->
  collapse_blank_lines (a ++ r) = a ++ collapse_blank_lines r.
Proof.
  induction a as [|c a IH]; intros H; [reflexivity|].
  simpl in H. apply andb_true_iff in H as [Hc Ha].
  apply negb_true_iff, N.eqb_neq in Hc.
  simpl app. rewrite collapse_other by exact Hc. now rewrite IH.
Qed.

Lemma count_nl_zero_free s : count_nl s = O -> free_of NL s = true.
Proof.
  induction s as [|c s IH]; intros H; [reflexivity|].
  rewrite count_nl_cons in H. simpl.
  destruct (c =? NL); [simpl in H; lia|]. simpl. apply IH. lia.
Qed.

Lemma trailing_split a : a = Str.rstrip a ++ trailing_space a.
Proof.
  unfold Str.rstrip, trailing_space. rewrite <- rev_app_distr.
  now rewrite <- leading_lstrip, rev_involutive.
Qed.

Lemma rstrip_ends_visible a : ends_visible (Str.rstrip a) = true.
Proof.
  unfold ends_visible, Str.rstrip. rewrite rev_involutive.
  apply lstrip_visible_start.
Qed.

(** The collapse works on each side of a position that no line break
    precedes within white space. *)
Lemma collapse_app_trailing a r :
  count_nl (trailing_space a) = O ->
  collapse_blank_lines (a ++ r)
  = collapse_blank_lines a ++ collapse_blank_lines r.
Proof.
  intros H. apply count_nl_zero_free in H.
  pose proof (rstrip_ends_visible a) as Hv.
  rewrite (trailing_split a) at 1 2.
  set (a0 := Str.rstrip a) in *. set (sp := trailing_space a) in *.
  rewrite <- app_assoc, !(collapse_app a0) by exact Hv.
  rewrite (collapse_nl_free sp r) by exact H.
  assert (Es : collapse_blank_lines sp = sp).
  { pose proof (collapse_nl_free sp [] H) as E.
    now rewrite !app_nil_r in E. }
  now rewrite Es, <- app_assoc.
Qed.

Lemma after_last_nl_app u v :
  (0 < count_nl v)%nat -> after_last_nl (u ++ v) = after_last_nl v.
Proof.
  intros H. induction u as [|c u IH]; [reflexivity|].
  simpl. rewrite count_nl_app.
  replace (0 <? count_nl u + count_nl v)%nat with true
    by (symmetry; apply Nat.ltb_lt; lia).
  exact IH.
Qed.

(** A run of blank lines, up to the indentation of the line after it. *)
Lemma collapse_run_indent w b :
  all_space w = true -> (1 <= count_nl w)%nat ->
  count_nl (leading_space b) = O ->
  collapse_blank_lines (NL :: w ++ NL :: b) = NL :: NL :: collapse_blank_lines b.
Proof.
  intros Hw Hn Hb.
  assert (El : leading_space (w ++ NL :: b) = w ++ NL :: leading_space b).
  { rewrite leading_space_app by exact Hw.
    now rewrite leading_space_cons, isspace_NL. }
  assert (Ec : count_nl (NL :: leading_space b) = 1%nat).
  { rewrite count_nl_cons, Hb. reflexivity. }
  rewrite collapse_hit.
  - rewrite El, after_last_nl_app by lia.
    cbn [after_last_nl]. rewrite Hb. cbn.
    rewrite lstrip_space by exact Hw.
    cbn [Str.lstrip]. rewrite isspace_NL.
    now rewrite <- leading_lstrip.
  - rewrite El, count_nl_app, Ec. lia.
Qed.

End CollapseMore.

(** * Texts with several calls *)

(** ** Where a call stands *)

Section Places.

Import Str.

Lemma line_start_inv n :
  line_start n = true -> exists y b, n = NL :: y :: b /\ isspace y = false.
Proof.
  destruct n as [|c [|y b]]; try discriminate. simpl.
  intros H. apply andb_true_iff in H as [Hc Hy].
  apply N.eqb_eq in Hc as ->. apply negb_true_iff in Hy. eauto.
Qed.

Lemma line_end_inv p :
  line_end p = true -> exists a x, p = a ++ [x; NL] /\ isspace x = false.
Proof.
  unfold line_end. intros H.
  destruct (rev p) as [|c [|x r]] eqn:E; try discriminate.
  apply andb_true_iff in H as [Hc Hx].
  apply N.eqb_eq in Hc as ->. apply negb_true_iff in Hx.
  exists (rev r), x. split; [|exact Hx].
  rewrite <- (rev_involutive p), E. simpl. now rewrite <- app_assoc.
Qed.

Lemma visible_first_inv r :
  visible_first r = true ->
  exists w x a, r = w ++ x :: a /\ isspace x = false /\ free_of NL w = true.
Proof.
  induction r as [|c r IH]; [discriminate|]. simpl.
  destruct (c =? NL) eqn:Ec; [discriminate|].
  destruct (isspace c) eqn:Es.
  - intros H. destruct (IH H) as (w & x & a & -> & Hx & Hw).
    exists (c :: w), x, a. repeat split; auto. simpl. now rewrite Ec.
  - intros _. exists [], c, r. auto.
Qed.

Lemma free_of_rev c s : free_of c (rev s) = free_of c s.
Proof.
  unfold free_of. induction s as [|x s IH]; [reflexivity|].
  simpl. rewrite forallb_app, IH. simpl. rewrite andb_true_r. apply andb_comm.
Qed.

Lemma mid_line_inv p :
  mid_line p = true ->
  exists a1 x a2, p = a1 ++ x :: a2 /\ isspace x = false /\ free_of NL a2 = true.
Proof.
  unfold mid_line. intros H.
  destruct (visible_first_inv _ H) as (w & x & a & E & Hx & Hw).
  exists (rev a), x, (rev w). split; [|split; [exact Hx|]].
  - rewrite <- (rev_involutive p), E, rev_app_distr. simpl.
    now rewrite <- app_assoc.
  - now rewrite free_of_rev.
Qed.

Lemma line_start_app n r : line_start n = true -> line_start (n ++ r) = true.
Proof. destruct n as [|c [|y b]]; try discriminate. auto. Qed.

Lemma line_end_app q p : line_end p = true -> line_end (q ++ p) = true.
Proof.
  intros H. destruct (line_end_inv _ H) as (a & x & -> & Hx).
  unfold line_end. rewrite !rev_app_distr. simpl. now rewrite Hx.
Qed.

Lemma visible_first_app r s : visible_first r = true -> visible_first (r ++ s) = true.
Proof.
  induction r as [|c r IH]; [discriminate|]. simpl.
  destruct (c =? NL); [discriminate|]. destruct (isspace c); auto.
Qed.

Lemma mid_line_app q p : mid_line p = true -> mid_line (q ++ p) = true.
Proof.
  unfold mid_line. intros H. rewrite rev_app_distr. now apply visible_first_app.
Qed.

Lemma starts_visible_app n r :
  starts_visible n = true -> is_nil n = false -> starts_visible (n ++ r) = true.
Proof. destruct n; [discriminate|auto]. Qed.

Lemma is_nil_app {A} (n r : list A) : is_nil n = false -> is_nil (n ++ r) = false.
Proof. destruct n; [discriminate|auto]. Qed.

Lemma is_targeted_spec fn : is_targeted fn = true <-> targeted fn.
Proof.
  unfold is_targeted, targeted. rewrite orb_true_iff, !bool_decide_eq_true.
  reflexivity.
Qed.

(** *** Occurrences that start inside a part *)

Lemma startswith_drop g v r :
  startswith g (v ++ r) = true -> (length v < length g)%nat ->
  startswith (drop (length v) g) r = true.
Proof.
  revert g. induction v as [|c v IH]; intros g H L.
  - now rewrite drop_0.
  - destruct g as [|a g]; [simpl in L; lia|].
    simpl in H. apply andb_true_iff in H as [_ H].
    simpl. apply IH; [exact H|simpl in L; lia].
Qed.

Lemma startswith_short g v r :
  startswith g (v ++ r) = true -> (length g <= length v)%nat ->
  startswith g v = true.
Proof.
  revert v. induction g as [|a g IH]; intros v H L; [reflexivity|].
  destruct v as [|c v]; [simpl in L; lia|].
  simpl in *. apply andb_true_iff in H as [-> H].
  simpl. apply IH; [exact H|lia].
Qed.

Lemma overlap_free_spec g rest k :
  overlap_free g rest = true -> (0 < k < length g)%nat ->
  startswith (drop k g) rest = false.
Proof.
  unfold overlap_free. intros H L.
  rewrite forallb_forall in H.
  apply negb_true_iff, (H k). apply in_seq. lia.
Qed.

Lemma no_start_intro g q rest :
  contains g q = false -> overlap_free g rest = true -> no_start g q rest.
Proof.
  intros Hq Ho u v -> Hv.
  destruct (startswith g (v ++ rest)) eqn:E; [|reflexivity].
  destruct (le_lt_dec (length g) (length v)) as [L|L].
  - apply startswith_short in E; [|exact L].
    apply contains_here, (contains_app_r g u) in E. congruence.
  - apply startswith_drop in E; [|exact L].
    rewrite (overlap_free_spec g rest (length v)) in E; [discriminate|exact Ho|].
    destruct v; [congruence|simpl in *; lia].
Qed.

Lemma no_start_end g q : contains g q = false -> no_start g q [].
Proof.
  intros Hq u v -> Hv. rewrite app_nil_r.
  destruct (startswith g v) eqn:E; [|reflexivity].
  apply contains_here, (contains_app_r g u) in E. congruence.
Qed.

Lemma visible_drop g k : visible g = true -> visible (drop k g) = true.
Proof.
  revert g. induction k as [|k IH]; intros [|a g] H; simpl; auto.
  simpl in H. apply andb_true_iff in H as [_ H]. now apply IH.
Qed.

Lemma overlap_free_space g c rest :
  visible g = true -> isspace c = true -> overlap_free g (c :: rest) = true.
Proof.
  intros Hg Hc. unfold overlap_free. apply forallb_forall. intros k Hk.
  apply in_seq in Hk. apply negb_true_iff.
  pose proof (visible_drop g k Hg) as Hd.
  destruct (drop k g) as [|a d] eqn:E.
  - apply (f_equal length) in E. rewrite length_drop in E. simpl in E. lia.
  - simpl in Hd. apply andb_true_iff in Hd as [Ha _].
    simpl. destruct (a =? c) eqn:Eac; [|reflexivity].
    apply N.eqb_eq in Eac as ->. rewrite Hc in Ha. discriminate.
Qed.

Lemma startswith_space g c s :
  g <> [] -> visible g = true -> isspace c = true -> startswith g (c :: s) = false.
Proof.
  intros Hg Hv Hc. destruct g as [|a g]; [congruence|].
  simpl in Hv. apply andb_true_iff in Hv as [Ha _].
  simpl. destruct (a =? c) eqn:E; [|reflexivity].
  apply N.eqb_eq in E as ->. rewrite Hc in Ha. discriminate.
Qed.

End Places.

(** ** The text around the calls *)

Section Settled.

Import Str.

Lemma no_opener_app u v :
  no_opener (u ++ v) = true -> no_opener u = true /\ no_opener v = true.
Proof.
  unfold no_opener. intros H. apply andb_true_iff in H as [Ha Hb].
  apply negb_true_iff in Ha, Hb.
  apply not_contains_app in Ha as [Ha1 Ha2], Hb as [Hb1 Hb2].
  now rewrite Ha1, Ha2, Hb1, Hb2.
Qed.

Lemma closed_catch_suffix u v : closed_catch (u ++ v) = true -> closed_catch v = true.
Proof.
  induction u as [|c u IH]; [auto|]. simpl.
  intros H. apply andb_true_iff in H as [_ H]. now apply IH.
Qed.

Lemma closed_catch_here v :
  closed_catch v = true -> startswith CATCH v = true -> free_of RP v = false.
Proof.
  destruct v as [|c v]; [discriminate|].
  cbn [closed_catch]. intros H S. rewrite S in H. simpl in H.
  apply andb_true_iff in H as [H _]. now apply negb_true_iff in H.
Qed.

Lemma before_callbacks_suffix q n ps :
  forallb closed_catch (before_callbacks (q ++ n) ps) = true ->
  forallb closed_catch (before_callbacks n ps) = true.
Proof.
  revert n. induction ps as [|[c n'] ps IH]; intros n; [reflexivity|].
  destruct c; simpl.
  - rewrite <- app_assoc. apply IH.
  - rewrite <- app_assoc. apply IH.
  - intros H. apply andb_true_iff in H as [H1 H2].
    now rewrite (closed_catch_suffix q n H1), H2.
Qed.

Lemma settled_next q c n ps : settled q ((c, n) :: ps) = true -> settled n ps = true.
Proof.
  unfold settled. intros H. apply andb_true_iff in H as [H1 H2].
  simpl in H1. apply no_opener_app in H1 as [_ H1]. rewrite H1. simpl.
  destruct c; simpl in H2.
  - now apply (before_callbacks_suffix q).
  - now apply (before_callbacks_suffix q).
  - now apply andb_true_iff in H2 as [_ H2].
Qed.

End Settled.

(** ** A substitution over a text with calls *)

Section Scan.

Import Re.

Variables (ml : bool) (p : regex) (repl : text) (hit only : call -> bool).

Hypothesis at_end : forall first prev q,
  staged only first q [] -> sub_from ml p repl prev O q = q.

Hypothesis before_call : forall first prev q c n ps,
  staged only first q ((c, n) :: ps) ->
  silent ml p prev q (call_text c ++ n ++ with_calls ps).

Hypothesis on_hit : forall first prev q c n ps,
  staged only first q ((c, n) :: ps) -> (first = true -> prev = None) ->
  hit c = true ->
  call_text c <> [] /\
  rmatch ml p (prev_after prev q) (call_text c ++ n ++ with_calls ps)
  = Some (n ++ with_calls ps).

Hypothesis on_miss : forall first prev q c n ps,
  staged only first q ((c, n) :: ps) -> (first = true -> prev = None) ->
  hit c = false ->
  silent ml p (prev_after prev q) (call_text c) (n ++ with_calls ps).

Lemma staged_next first q c n ps :
  staged only first q ((c, n) :: ps) -> staged only false n ps.
Proof.
  intros (Hp & Hq & Ho). split; [|split].
  - simpl in Hp. now apply andb_true_iff in Hp as [_ Hp].
  - now apply (settled_next q c).
  - simpl in Ho. now apply andb_true_iff in Ho as [_ Ho].
Qed.

Lemma sub_calls ps : forall first prev q,
  staged only first q ps -> (first = true -> prev = None) ->
  sub_from ml p repl prev O (q ++ with_calls ps) = q ++ after_sub hit repl ps.
Proof.
  induction ps as [|[c n] ps IH]; intros first prev q Hs Hprev.
  - simpl. rewrite !app_nil_r. now apply (at_end first).
  - cbn [with_calls after_sub].
    rewrite sub_scan by (apply (before_call first); assumption).
    f_equal.
    pose proof (staged_next _ _ _ _ _ Hs) as Hn.
    destruct (hit c) eqn:Eh.
    + destruct (on_hit first prev q c n ps Hs Hprev Eh) as [Hne Hm].
      rewrite sub_hit by assumption.
      f_equal. apply (IH false); [exact Hn|discriminate].
    + rewrite sub_scan by (apply (on_miss first); assumption).
      f_equal. apply (IH false); [exact Hn|discriminate].
Qed.

End Scan.

(** ** The calls that are left after a substitution *)

Section Views.

Variable hit : call -> bool.

Lemma drop_whole p ps :
  (drop_calls hit p ps).1 ++ with_calls (drop_calls hit p ps).2
  = p ++ after_sub hit [] ps.
Proof.
  revert p. induction ps as [|[c n] ps IH]; intros p; [reflexivity|].
  simpl. destruct (hit c).
  - rewrite IH. simpl. now rewrite <- app_assoc.
  - simpl. now rewrite IH.
Qed.

Lemma drop_around p ps :
  (drop_calls hit p ps).1 ++ around (drop_calls hit p ps).2 = p ++ around ps.
Proof.
  revert p. induction ps as [|[c n] ps IH]; intros p; [reflexivity|].
  simpl. destruct (hit c).
  - rewrite IH. now rewrite <- app_assoc.
  - simpl. now rewrite IH.
Qed.

Lemma drop_without p ps :
  (forall c, hit c = true -> call_left c = []) ->
  (drop_calls hit p ps).1 ++ without_calls (drop_calls hit p ps).2
  = p ++ without_calls ps.
Proof.
  intros Hl. revert p. induction ps as [|[c n] ps IH]; intros p; [reflexivity|].
  simpl. destruct (hit c) eqn:E.
  - rewrite IH, (Hl c E). now rewrite <- app_assoc.
  - simpl. now rewrite IH.
Qed.

Lemma drop_prefix p ps : exists r, (drop_calls hit p ps).1 = p ++ r.
Proof.
  revert p. induction ps as [|[c n] ps IH]; intros p.
  - exists []. simpl. now rewrite app_nil_r.
  - simpl. destruct (hit c).
    + destruct (IH (p ++ n)) as [r ->]. exists (n ++ r). now rewrite app_assoc.
    + exists []. simpl. now rewrite app_nil_r.
Qed.

Lemma fits_before_app c first first' q p :
  fits_before c first p = true -> (first = true -> q = [] /\ first' = true) ->
  fits_before c first' (q ++ p) = true.
Proof.
  destruct c; simpl; auto.
  - intros H Hf. apply orb_true_iff in H as [H|H].
    + apply andb_true_iff in H as [H1 H2]. destruct (Hf H1) as [-> ->].
      simpl. now rewrite H2.
    + apply orb_true_iff. right. now apply line_end_app.
  - intros H _. now apply mid_line_app.
Qed.

Lemma placed_app first first' q p ps :
  placed first p ps = true -> (first = true -> q = [] /\ first' = true) ->
  placed first' (q ++ p) ps = true.
Proof.
  destruct ps as [|[c n] ps]; [reflexivity|]. simpl.
  intros H Hf. apply andb_true_iff in H as [H H4].
  apply andb_true_iff in H as [H H3]. apply andb_true_iff in H as [H1 H2].
  rewrite H1, H3, H4, (fits_before_app c first first' q p H2 Hf). reflexivity.
Qed.

Lemma fits_after_app c last last' n r :
  fits_after c last n = true -> (last = true -> r = [] /\ last' = true) ->
  fits_after c last' (n ++ r) = true.
Proof.
  destruct c; simpl; auto.
  - intros H Hf. apply orb_true_iff in H as [H|H].
    + apply andb_true_iff in H as [H1 H2]. destruct (Hf H1) as [-> ->].
      rewrite app_nil_r. now rewrite H2.
    + apply orb_true_iff. right. now apply line_start_app.
  - intros H Hf. apply orb_true_iff in H as [H|H].
    + apply andb_true_iff in H as [H1 H2]. destruct (Hf H1) as [-> ->].
      rewrite app_nil_r. now rewrite H2.
    + apply andb_true_iff in H as [H1 H2]. apply negb_true_iff in H2.
      apply orb_true_iff. right.
      rewrite starts_visible_app, is_nil_app by assumption. reflexivity.
Qed.

Lemma placed_drop ps : forall first p,
  placed first p ps = true ->
  placed first (drop_calls hit p ps).1 (drop_calls hit p ps).2 = true.
Proof.
  induction ps as [|[c n] ps IH]; intros first p H; [reflexivity|].
  simpl in H. apply andb_true_iff in H as [H H4].
  apply andb_true_iff in H as [H H3]. apply andb_true_iff in H as [H1 H2].
  simpl. destruct (hit c).
  - apply IH. destruct ps as [|[c' n'] ps]; [reflexivity|].
    destruct first.
    + (* the call that is dropped is the first *)
      simpl in H4 |- *.
      apply andb_true_iff in H4 as [H4 H8].
      apply andb_true_iff in H4 as [H4 H7]. apply andb_true_iff in H4 as [H5 H6].
      rewrite H5, H7, H8. rewrite !andb_true_r.
      destruct c'; simpl in *; auto.
      * apply orb_true_iff. right. now apply line_end_app.
      * now apply mid_line_app.
    + apply (placed_app false false); [exact H4|discriminate].
  - simpl. rewrite H1, H2. simpl.
    rewrite (IH false n H4), andb_true_r.
    destruct (drop_prefix n ps) as [r Er]. rewrite Er.
    apply (fits_after_app c (is_nil ps)); [exact H3|].
    intros Hl. destruct ps; [|discriminate].
    simpl in *. split; [|reflexivity].
    apply (f_equal length) in Er. rewrite length_app in Er.
    destruct r; [reflexivity|simpl in Er; lia].
Qed.

Hypothesis hit_call : forall c, hit c = true -> is_callback c = false.

Lemma drop_before_callbacks_from ps : forall p0 p,
  before_callbacks (p0 ++ (drop_calls hit p ps).1) (drop_calls hit p ps).2
  = before_callbacks (p0 ++ p) ps.
Proof.
  induction ps as [|[c n] ps IH]; intros p0 p; [reflexivity|].
  simpl. destruct (hit c) eqn:E.
  - rewrite IH. apply hit_call in E.
    destruct c; try discriminate; now rewrite <- app_assoc.
  - destruct c; cbn [before_callbacks fst snd].
    + now rewrite (IH (p0 ++ p) n).
    + now rewrite (IH (p0 ++ p) n).
    + f_equal. apply (IH [] n).
Qed.

Lemma drop_before_callbacks p ps :
  before_callbacks (drop_calls hit p ps).1 (drop_calls hit p ps).2
  = before_callbacks p ps.
Proof. apply (drop_before_callbacks_from ps []). Qed.

Lemma settled_drop p ps :
  settled p ps = true ->
  settled (drop_calls hit p ps).1 (drop_calls hit p ps).2 = true.
Proof.
  unfold settled. now rewrite drop_around, drop_before_callbacks.
Qed.

Lemma drop_only only p ps :
  forallb (fun cn => only cn.1) ps = true ->
  forallb (fun cn => only cn.1 && negb (hit cn.1)) (drop_calls hit p ps).2 = true.
Proof.
  revert p. induction ps as [|[c n] ps IH]; intros p H; [reflexivity|].
  simpl in H. apply andb_true_iff in H as [H1 H2].
  simpl. destruct (hit c) eqn:E; [now apply IH|].
  simpl. rewrite H1, E. simpl. now apply IH.
Qed.

End Views.

(** ** Where an opener can start in a text with calls *)

Section Starts.

Import Str.

Lemma position_split (a b u v : text) :
  a ++ b = u ++ v -> v <> [] ->
  (exists v1, a = u ++ v1 /\ v1 <> [] /\ v = v1 ++ b) \/
  (exists u2, u = a ++ u2 /\ b = u2 ++ v).
Proof.
  intros E Hv. apply app_eq_inv in E as [(k & -> & ->)|(k & -> & ->)].
  - destruct k as [|c k].
    + right. exists []. now rewrite !app_nil_r.
    + left. exists (c :: k). auto.
  - right. now exists k.
Qed.

Lemma no_start_app g a b rest :
  no_start g a (b ++ rest) -> no_start g b rest -> no_start g (a ++ b) rest.
Proof.
  intros Ha Hb u v E Hv.
  destruct (position_split _ _ _ _ E Hv) as [(v1 & -> & H1 & ->)|(u2 & -> & ->)].
  - rewrite <- app_assoc. now apply (Ha u v1).
  - now apply (Hb u2 v).
Qed.

Lemma no_start_space g w rest :
  g <> [] -> visible g = true -> all_space w = true -> no_start g w rest.
Proof.
  intros Hg Hv Hw u v -> Hne. destruct v as [|c v]; [congruence|].
  apply startswith_space; auto.
  apply (all_space_in (u ++ c :: v)); [exact Hw|].
  apply in_or_app. right. now left.
Qed.

Lemma no_start_b_spec g q rest : no_start_b g q rest = true -> no_start g q rest.
Proof.
  unfold no_start_b. rewrite forallb_forall. intros H u v -> Hv.
  apply negb_true_iff.
  replace v with (drop (length u) (u ++ v)) at 1 by apply drop_app_length.
  apply H, in_seq. rewrite length_app. destruct v; [congruence|simpl; lia].
Qed.

(** *** The words of the patterns *)

Lemma targeted_visible fn : targeted fn -> visible fn = true /\ fn <> [].
Proof. intros [-> | ->]; (split; [reflexivity|discriminate]). Qed.

Lemma overlap_opener fn g rest :
  targeted fn -> targeted g -> overlap_free fn (g ++ rest) = true.
Proof. intros [-> | ->] [-> | ->]; vm_compute; reflexivity. Qed.

Lemma overlap_catch fn rest : targeted fn -> overlap_free fn (CATCH ++ rest) = true.
Proof. intros [-> | ->]; vm_compute; reflexivity. Qed.

Lemma overlap_close fn rest : targeted fn -> overlap_free fn (RP :: rest) = true.
Proof. intros [-> | ->]; vm_compute; reflexivity. Qed.

Lemma overlap_catch_catch rest : overlap_free CATCH (CATCH ++ rest) = true.
Proof. vm_compute. reflexivity. Qed.

Lemma no_start_other fn g rest :
  targeted fn -> targeted g -> fn <> g -> no_start fn g rest.
Proof.
  intros [-> | ->] [-> | ->] Hne; try congruence;
    apply no_start_b_spec; vm_compute; reflexivity.
Qed.

Lemma no_start_tail fn g rest :
  targeted fn -> targeted g -> no_start fn (drop 1 g) rest.
Proof.
  intros [-> | ->] [-> | ->]; apply no_start_b_spec; vm_compute; reflexivity.
Qed.

Lemma no_start_in_catch fn rest : targeted fn -> no_start fn CATCH rest.
Proof. intros [-> | ->]; apply no_start_b_spec; vm_compute; reflexivity. Qed.

Lemma no_start_close fn rest : targeted fn -> no_start fn [RP] rest.
Proof. intros [-> | ->]; apply no_start_b_spec; vm_compute; reflexivity. Qed.

Lemma no_start_end_call fn rest : targeted fn -> no_start fn [RP; SEMI] rest.
Proof. intros [-> | ->]; apply no_start_b_spec; vm_compute; reflexivity. Qed.

Lemma startswith_self_other fn g rest :
  targeted fn -> targeted g -> startswith fn (g ++ rest) = true -> fn = g.
Proof.
  intros [-> | ->] [-> | ->]; try reflexivity; vm_compute; discriminate.
Qed.

Lemma startswith_catch fn rest :
  targeted fn -> startswith fn (CATCH ++ rest) = false.
Proof. intros [-> | ->]; vm_compute; reflexivity. Qed.

(** *** The parts of a call *)

Lemma no_opener_free fn s : targeted fn -> no_opener s = true -> contains fn s = false.
Proof. intros Hfn H. now apply no_opener_inv. Qed.

Lemma no_start_args fn args rest :
  targeted fn -> no_opener args = true -> no_start fn args (RP :: rest).
Proof.
  intros Hfn Ha. apply no_start_intro.
  - now apply no_opener_free.
  - now apply overlap_close.
Qed.

Lemma no_start_space_then fn w rest :
  targeted fn -> all_space w = true -> no_start fn w rest.
Proof.
  intros Hfn Hw. destruct (targeted_visible fn Hfn). now apply no_start_space.
Qed.

(** What follows the opener of a call: arguments, [);] and white space. *)
Lemma no_start_after_opener fn args w rest :
  targeted fn -> no_opener args = true -> all_space w = true ->
  no_start fn (args ++ RP :: SEMI :: w) rest.
Proof.
  intros Hfn Ha Hw.
  apply no_start_app; [now apply no_start_args|].
  change (RP :: SEMI :: w) with ([RP; SEMI] ++ w).
  apply no_start_app; [now apply no_start_end_call|].
  now apply no_start_space_then.
Qed.

End Starts.

Section CallStarts.

Import Re Str.

Lemma all_space_app u v : all_space (u ++ v) = all_space u && all_space v.
Proof. apply forallb_app. Qed.

Lemma free_of_app c u v : free_of c (u ++ v) = free_of c u && free_of c v.
Proof. apply forallb_app. Qed.

(** A stretch of white space that ends a text does not hold its last
    visible character. *)
Lemma space_suffix (u v a1 a2 : text) x :
  u ++ v = a1 ++ x :: a2 -> all_space v = true -> isspace x = false ->
  exists k, u = a1 ++ x :: k /\ a2 = k ++ v.
Proof.
  intros E Hv Hx. apply app_eq_inv in E as [(k & -> & E)|(k & -> & ->)].
  - destruct k as [|x' k].
    + simpl in E. subst v.
      rewrite (all_space_in _ x Hv) in Hx by now left. discriminate.
    + injection E as <- ->. now exists k.
  - rewrite (all_space_in _ x Hv) in Hx; [discriminate|].
    apply in_or_app. right. now left.
Qed.

Lemma bol_blocked_from prev a1 x k :
  isspace x = false -> free_of NL k = true ->
  at_bol true (prev_after prev (a1 ++ x :: k)) = false.
Proof.
  intros Hx Hk. rewrite prev_after_app.
  change (prev_after (prev_after prev a1) (x :: k)) with (prev_after (Some x) k).
  destruct (prev_after_in x k) as (z & -> & Hz).
  simpl. apply N.eqb_neq. destruct Hz as [->|Hz].
  - now apply visible_not_NL.
  - now apply (free_of_in NL k).
Qed.

Lemma mid_line_not_bol prev q :
  mid_line q = true -> at_bol true (prev_after prev q) = false.
Proof.
  intros H. destruct (mid_line_inv _ H) as (a1 & x & a2 & -> & Hx & Ha).
  now apply bol_blocked_from.
Qed.

(** White space at the end of the text before a call does not start a
    line. *)
Lemma before_not_bol c first prev q u v :
  fits_before c first q = true -> is_callback c = false ->
  q = u ++ v -> v <> [] -> all_space v = true ->
  at_bol true (prev_after prev u) = false.
Proof.
  intros Hf Hc -> Hv Hs. destruct c; simpl in *; try discriminate.
  - apply orb_true_iff in Hf as [Hf|Hf].
    + apply andb_true_iff in Hf as [_ Hf].
      destruct u, v; simpl in Hf; congruence.
    + destruct (line_end_inv _ Hf) as (a & x & E & Hx).
      destruct (space_suffix u v a [NL] x E Hs Hx) as (k & -> & Ek).
      apply bol_blocked_from; [exact Hx|].
      destruct k as [|c k]; [reflexivity|].
      destruct k, v; simpl in Ek; congruence.
  - destruct (mid_line_inv _ Hf) as (a1 & x & a2 & E & Hx & Ha).
    destruct (space_suffix u v a1 a2 x E Hs Hx) as (k & -> & ->).
    apply bol_blocked_from; [exact Hx|].
    rewrite free_of_app in Ha. now apply andb_true_iff in Ha as [Ha _].
Qed.

Lemma last_in (a u v : text) c : a ++ [c] = u ++ v -> v <> [] -> In c v.
Proof.
  intros E Hv. destruct (exists_last Hv) as (v0 & l & ->).
  rewrite app_assoc in E. apply app_inj_tail in E as [_ <-].
  apply in_or_app. right. now left.
Qed.

(** *** Accessors of [staged] *)

Lemma staged_head only first q c n ps :
  staged only first q ((c, n) :: ps) ->
  call_ok c = true /\ fits_before c first q = true /\
  fits_after c (is_nil ps) n = true /\ only c = true.
Proof.
  intros (Hp & _ & Ho). simpl in Hp, Ho.
  apply andb_true_iff in Hp as [Hp _].
  apply andb_true_iff in Hp as [Hp H3]. apply andb_true_iff in Hp as [H1 H2].
  apply andb_true_iff in Ho as [Ho _]. auto.
Qed.

Lemma staged_free only first q ps g :
  staged only first q ps -> targeted g -> contains g q = false.
Proof.
  intros (_ & Hq & _) Hg. apply andb_true_iff in Hq as [Hq _].
  apply no_opener_app in Hq as [Hq _]. now apply no_opener_inv.
Qed.

Lemma staged_closed only first q x y z n ps :
  staged only first q ((Callback x y z, n) :: ps) -> closed_catch q = true.
Proof.
  intros (_ & Hq & _). apply andb_true_iff in Hq as [_ Hq].
  simpl in Hq. now apply andb_true_iff in Hq as [Hq _].
Qed.

Lemma overlap_free_call fn c rest :
  targeted fn -> call_ok c = true ->
  overlap_free fn (call_text c ++ rest) = true.
Proof.
  intros Hfn Hc. destruct (targeted_visible fn Hfn) as [Hv Hne].
  destruct c as [g ws1 args ws2|g args w|x y z]; simpl in Hc |- *.
  - repeat (apply andb_true_iff in Hc as [Hc ?]).
    apply is_targeted_spec in Hc.
    destruct ws1 as [|c0 ws1].
    + simpl. rewrite <- app_assoc. now apply overlap_opener.
    + simpl. apply overlap_free_space; [exact Hv|].
      simpl in *. now apply andb_true_iff in H2 as [H2 _].
  - repeat (apply andb_true_iff in Hc as [Hc ?]).
    apply is_targeted_spec in Hc.
    rewrite <- app_assoc. now apply overlap_opener.
  - rewrite <- app_assoc. now apply overlap_catch.
Qed.

Lemma staged_no_start only first q ps fn :
  staged only first q ps -> targeted fn -> no_start fn q (with_calls ps).
Proof.
  intros Hs Hfn. pose proof (staged_free _ _ _ _ fn Hs Hfn) as Hq.
  destruct ps as [|[c n] ps].
  - now apply no_start_end.
  - apply no_start_intro; [exact Hq|]. simpl.
    apply overlap_free_call; [exact Hfn|].
    now destruct (staged_head _ _ _ _ _ _ Hs).
Qed.

(** *** Openers inside a call that a rule leaves *)

Lemma no_start_line fn g ws1 args ws2 rest :
  targeted fn -> call_ok (Line g ws1 args ws2) = true -> g <> fn ->
  no_start fn (call_text (Line g ws1 args ws2)) rest.
Proof.
  intros Hfn Hc Hne. simpl in Hc |- *.
  repeat (apply andb_true_iff in Hc as [Hc ?]).
  apply is_targeted_spec in Hc.
  apply no_start_app; [now apply no_start_space_then|].
  apply no_start_app; [apply no_start_other; auto|].
  now apply no_start_after_opener.
Qed.

Lemma no_start_inline fn g args w rest :
  targeted fn -> call_ok (Inline g args w) = true ->
  no_start fn (drop 1 g ++ args ++ RP :: SEMI :: w) rest.
Proof.
  intros Hfn Hc. simpl in Hc.
  repeat (apply andb_true_iff in Hc as [Hc ?]).
  apply is_targeted_spec in Hc.
  apply no_start_app; [now apply no_start_tail|].
  now apply no_start_after_opener.
Qed.

Lemma opener_cons g : targeted g -> exists c, g = c :: drop 1 g.
Proof. intros [-> | ->]; eexists; reflexivity. Qed.

(** Inside the text of an inline call an opener starts at most at the
    start. *)
Lemma inline_start fn g args w rest u v :
  targeted fn -> call_ok (Inline g args w) = true ->
  call_text (Inline g args w) = u ++ v -> v <> [] ->
  startswith fn (v ++ rest) = true -> u = [] /\ fn = g.
Proof.
  intros Hfn Hc E Hv Hs.
  pose proof (no_start_inline fn g args w rest Hfn Hc) as Hn.
  assert (Hg : targeted g).
  { simpl in Hc. repeat (apply andb_true_iff in Hc as [Hc ?]).
    now apply is_targeted_spec. }
  destruct u as [|c0 u].
  - split; [reflexivity|]. simpl in E. subst v.
    simpl in Hs. rewrite <- app_assoc in Hs.
    now apply startswith_self_other in Hs.
  - exfalso. destruct (opener_cons g Hg) as (c & Eg).
    simpl in E. rewrite Eg in E. simpl in E. injection E as _ E.
    rewrite (Hn u v E Hv) in Hs. discriminate.
Qed.

Lemma callback_start fn x y z rest u v :
  targeted fn -> call_ok (Callback x y z) = true ->
  call_text (Callback x y z) = u ++ v -> v <> [] ->
  startswith fn (v ++ rest) = true ->
  fn = LOG /\ u = CATCH ++ x /\ v = LOG ++ y ++ RP :: z ++ [RP].
Proof.
  intros Hfn Hc E Hv Hs. simpl in Hc. unfold call_text in E.
  repeat (apply andb_true_iff in Hc as [Hc ?]).
  rewrite (app_assoc CATCH x) in E.
  destruct (position_split _ _ _ _ E Hv) as [(v1 & E1 & Hv1 & ->)|(u2 & -> & E2)].
  - exfalso. rewrite <- app_assoc in Hs.
    assert (Hn : no_start fn (CATCH ++ x)
                   ((LOG ++ y ++ RP :: z ++ [RP]) ++ rest)).
    { apply no_start_app; [now apply no_start_in_catch|].
      apply no_start_intro; [now apply no_opener_free|].
      rewrite <- app_assoc. apply overlap_opener; [exact Hfn|now left]. }
    rewrite (Hn u v1 E1 Hv1) in Hs. discriminate.
  - destruct u2 as [|c0 u2].
    + rewrite app_nil_l in E2. subst v. rewrite app_nil_r.
      rewrite <- app_assoc in Hs.
      apply startswith_self_other in Hs; [|exact Hfn|now left]. auto.
    + exfalso.
      assert (Hn : no_start fn (drop 1 LOG ++ y ++ [RP] ++ z ++ [RP]) rest).
      { apply no_start_app; [apply no_start_tail; [exact Hfn|now left]|].
        apply no_start_app.
        { apply no_start_intro; [now apply no_opener_free|].
          now apply overlap_close. }
        apply no_start_app; [now apply no_start_close|].
        apply no_start_app.
        { apply no_start_intro; [now apply no_opener_free|].
          now apply overlap_close. }
        now apply no_start_close. }
      change (LOG ++ y ++ RP :: z ++ [RP])
        with (99 :: (drop 1 LOG ++ y ++ [RP] ++ z ++ [RP])) in E2.
      injection E2 as _ E2.
      rewrite (Hn u2 v E2 Hv) in Hs. discriminate.
Qed.

End CallStarts.

(** ** The rule for a call alone on its line, over a text with calls *)

Section LineStage.

Import Re Str.

Variable fn : text.
Hypothesis Hfn : targeted fn.
Variable only : call -> bool.

(** How a match of the rule lies over the end of a part [v] and what
    follows it: the opener starts inside [v], or [v] is white space
    that the match skips. *)
Lemma line_rule_over prev v rest r :
  rmatch true (line_rule fn) prev (v ++ rest) = Some r ->
  at_bol true prev = true /\
  ((exists w v1, v = w ++ v1 /\ v1 <> [] /\ startswith fn (v1 ++ rest) = true /\
      exists v', fn ++ v' = v1 ++ rest /\
        rmatch true [Many (Not RP); One (Lit RP); One (Lit SEMI);
                     Many Space; Eol] (prev_after prev (w ++ fn)) v' = Some r) \/
   (all_space v = true /\
    exists w2 v', rest = w2 ++ fn ++ v' /\ all_space w2 = true)).
Proof.
  intros M. destruct (targeted_visible fn Hfn) as [_ Hne].
  apply line_rule_inv in M as (Hbol & w & v' & E & Hw & M).
  split; [exact Hbol|].
  assert (Hn : fn ++ v' <> []) by (destruct fn; [congruence|discriminate]).
  destruct (position_split v rest w (fn ++ v') E Hn)
    as [(v1 & -> & H1 & E1)|(u2 & -> & E2)].
  - left. exists w, v1. repeat split; auto.
    + rewrite <- E1. apply startswith_app.
    + now exists v'.
  - right. rewrite all_space_app in Hw. apply andb_true_iff in Hw as [Hv Hu].
    split; [exact Hv|]. now exists u2, v'.
Qed.

Lemma line_at_end first prev q :
  staged only first q [] -> sub_from true (line_rule fn) [] prev O q = q.
Proof.
  intros Hs. apply line_rule_absent.
  now apply (staged_free only first q [] fn Hs).
Qed.

Lemma line_before_call first prev q c n ps :
  staged only first q ((c, n) :: ps) ->
  silent true (line_rule fn) prev q (call_text c ++ n ++ with_calls ps).
Proof.
  intros Hs u v E Hv.
  destruct (rmatch _ _ _ _) as [r|] eqn:M; [exfalso|reflexivity].
  destruct (staged_head _ _ _ _ _ _ Hs) as (Hc & Hb & Ha & _).
  pose proof (staged_no_start _ _ _ _ fn Hs Hfn) as Hn. simpl in Hn.
  apply line_rule_over in M as (Hbol & [(w & v1 & -> & H1 & S1 & _)|(Hv' & w2 & v' & E2 & Hw2)]).
  - rewrite (Hn (u ++ w) v1) in S1; [discriminate| |exact H1].
    now rewrite <- app_assoc.
  - destruct (is_callback c) eqn:Ec.
    + destruct c; try discriminate. unfold call_text in E2.
      destruct w2 as [|c0 w2].
      * rewrite app_nil_l in E2.
        pose proof (startswith_app fn v') as S. rewrite <- E2 in S.
        rewrite <- !app_assoc in S.
        rewrite startswith_catch in S; [discriminate|exact Hfn].
      * simpl in Hw2. apply andb_true_iff in Hw2 as [Hc0 _].
        rewrite <- !app_assoc in E2.
        change (CATCH ++ x ++ LOG ++ y ++ (RP :: z ++ [RP]) ++ n ++ with_calls ps)
          with (46 :: (drop 1 CATCH ++ x ++ LOG ++ y ++ (RP :: z ++ [RP]) ++ n ++ with_calls ps)) in E2.
        injection E2 as <- _. discriminate.
    + rewrite (before_not_bol c first prev q u v Hb Ec E Hv Hv') in Hbol.
      discriminate.
Qed.

Lemma fits_after_line g ws1 args ws2 n ps :
  fits_after (Line g ws1 args ws2) (is_nil ps) n = true ->
  n ++ with_calls ps = [] \/
  exists y b, n = NL :: y :: b /\ isspace y = false.
Proof.
  simpl. intros H. apply orb_true_iff in H as [H|H].
  - apply andb_true_iff in H as [H1 H2]. left.
    destruct ps, n; try discriminate. reflexivity.
  - right. now apply line_start_inv.
Qed.

Lemma line_on_hit first prev q c n ps :
  staged only first q ((c, n) :: ps) -> (first = true -> prev = None) ->
  is_line fn c = true ->
  call_text c <> [] /\
  rmatch true (line_rule fn) (prev_after prev q)
    (call_text c ++ n ++ with_calls ps) = Some (n ++ with_calls ps).
Proof.
  intros Hs Hprev Hh.
  destruct (staged_head _ _ _ _ _ _ Hs) as (Hc & Hb & Ha & _).
  destruct (targeted_visible fn Hfn) as [Hvis Hne].
  destruct c as [g ws1 args ws2| |]; try discriminate.
  simpl in Hh. apply bool_decide_eq_true in Hh as ->.
  split.
  { simpl. destruct ws1; [|discriminate]. destruct fn; [congruence|discriminate]. }
  simpl in Hc. repeat (apply andb_true_iff in Hc as [Hc ?]).
  unfold call_text. rewrite <- !app_assoc.
  change ((RP :: SEMI :: ws2) ++ n ++ with_calls ps)
    with (RP :: SEMI :: ws2 ++ n ++ with_calls ps).
  apply line_rule_hit; auto.
  - destruct fn as [|c0 f]; [congruence|]. simpl in Hvis |- *.
    now apply andb_true_iff in Hvis as [Hvis _].
  - simpl in Hb. apply orb_true_iff in Hb as [Hb|Hb].
    + apply andb_true_iff in Hb as [Hf Hq]. rewrite (Hprev Hf).
      destruct q; [reflexivity|discriminate].
    + destruct (line_end_inv _ Hb) as (a & x & -> & _).
      rewrite prev_after_app. simpl. reflexivity.
  - destruct (fits_after_line _ _ _ _ _ _ Ha) as [E|(y & b & -> & Hy)].
    + now left.
    + right. exists y, (b ++ with_calls ps). auto.
Qed.

Lemma line_on_miss first prev q c n ps :
  staged only first q ((c, n) :: ps) -> (first = true -> prev = None) ->
  is_line fn c = false ->
  silent true (line_rule fn) (prev_after prev q) (call_text c)
    (n ++ with_calls ps).
Proof.
  intros Hs Hprev Hh u v E Hv.
  destruct (rmatch _ _ _ _) as [r|] eqn:M; [exfalso|reflexivity].
  destruct (staged_head _ _ _ _ _ _ Hs) as (Hc & Hb & Ha & _).
  destruct (targeted_visible fn Hfn) as [Hvis Hne].
  pose proof (staged_no_start _ _ _ _ fn (staged_next _ _ _ _ _ _ Hs) Hfn) as Hn.
  apply line_rule_over in M
    as (Hbol & [(w & v1 & -> & H1 & S1 & v' & E1 & M)|(Hv' & w2 & v' & E2 & Hw2)]).
  - (* the opener would start inside the call *)
    rewrite app_assoc in E.
    destruct c as [g ws1 args ws2|g args w0|x y z].
    + simpl in Hh. apply bool_decide_eq_false in Hh.
      rewrite (no_start_line fn g ws1 args ws2 _ Hfn Hc Hh _ _ E H1) in S1.
      discriminate.
    + destruct (inline_start fn g args w0 _ _ _ Hfn Hc E H1 S1) as [Eu _].
      destruct u; [|discriminate]. destruct w; [|discriminate].
      simpl in Hbol. simpl in Hb.
      rewrite mid_line_not_bol in Hbol by exact Hb. discriminate.
    + destruct (callback_start fn x y z _ _ _ Hfn Hc E H1 S1) as (-> & _ & ->).
      rewrite <- !app_assoc in E1. apply app_inv_head in E1. subst v'.
      simpl in Hc. repeat (apply andb_true_iff in Hc as [Hc ?]).
      cbn [app] in M.
      rewrite rmatch_call_unterminated in M; [discriminate|assumption|].
      destruct z; [reflexivity|assumption].
  - (* the match would go through the white space that ends the call *)
    destruct c as [g ws1 args ws2|g args w0|x y z].
    + destruct (fits_after_line _ _ _ _ _ _ Ha) as [E0|(y & b & -> & Hy)].
      * rewrite E0 in E2. destruct w2; [|discriminate].
        destruct fn; [congruence|discriminate].
      * destruct w2 as [|c0 [|c1 w2]].
        -- rewrite app_nil_l in E2.
           pose proof (startswith_app fn v') as S. rewrite <- E2 in S.
           simpl in S. rewrite startswith_space in S; auto. discriminate.
        -- simpl in E2. injection E2 as _ E2.
           pose proof (startswith_app fn v') as S. rewrite <- E2 in S.
           pose proof (Hn [NL] (y :: b) eq_refl ltac:(discriminate)) as F.
           cbn [app] in F. congruence.
        -- simpl in E2. injection E2 as _ <- _.
           simpl in Hw2. rewrite Hy in Hw2. simpl in Hw2.
           rewrite andb_false_r in Hw2. discriminate.
    + simpl in Ha. apply orb_true_iff in Ha as [Ha|Ha].
      * apply andb_true_iff in Ha as [H1 H2].
        destruct ps, n; try discriminate. simpl in E2.
        destruct w2; [|discriminate]. destruct fn; [congruence|discriminate].
      * apply andb_true_iff in Ha as [H1 H2].
        destruct n as [|y b]; [discriminate|]. simpl in H1.
        apply negb_true_iff in H1.
        destruct w2 as [|c0 w2].
        -- rewrite app_nil_l in E2.
           pose proof (startswith_app fn v') as S. rewrite <- E2 in S.
           pose proof (Hn [] (y :: b) eq_refl ltac:(discriminate)) as F.
           cbn [app] in F, S. congruence.
        -- simpl in E2. injection E2 as <- _.
           simpl in Hw2. rewrite H1 in Hw2. discriminate.
    + unfold call_text in E.
      change (CATCH ++ x ++ LOG ++ y ++ RP :: z ++ [RP])
        with (CATCH ++ x ++ LOG ++ y ++ (RP :: z) ++ [RP]) in E.
      rewrite !app_assoc in E.
      pose proof (last_in _ _ _ _ E Hv) as Hin.
      pose proof (all_space_in _ _ Hv' Hin) as Hsp. discriminate.
Qed.

Lemma strip_line_calls q ps :
  staged only true q ps ->
  strip_line fn (q ++ with_calls ps) = q ++ after_sub (is_line fn) [] ps.
Proof.
  intros Hs. unfold strip_line.
  apply (sub_calls true (line_rule fn) [] (is_line fn) only) with (first := true);
    auto.
  - apply line_at_end.
  - apply line_before_call.
  - apply line_on_hit.
  - apply line_on_miss.
Qed.

End LineStage.

(** ** The rule for a call inside a line, over a text with calls *)

Section InlineStage.

Import Re Str.

Variable fn : text.
Hypothesis Hfn : targeted fn.
Variable only : call -> bool.
Hypothesis only_not_line : forall c, only c = true -> not_line c = true.

Lemma inline_rule_starts ml prev v r :
  rmatch ml (inline_rule fn) prev v = Some r ->
  startswith fn v = true /\
  exists v', v = fn ++ v' /\
    rmatch ml [Many (Not RP); One (Lit RP); One (Lit SEMI); Many Space]
      (prev_after prev fn) v' = Some r.
Proof.
  intros M. apply inline_rule_inv in M as (v' & -> & M).
  split; [apply startswith_app|]. now exists v'.
Qed.

Lemma inline_at_end first prev q :
  staged only first q [] -> sub_from false (inline_rule fn) [] prev O q = q.
Proof.
  intros Hs. apply inline_rule_absent.
  now apply (staged_free only first q [] fn Hs).
Qed.

Lemma inline_before_call first prev q c n ps :
  staged only first q ((c, n) :: ps) ->
  silent false (inline_rule fn) prev q (call_text c ++ n ++ with_calls ps).
Proof.
  intros Hs u v E Hv.
  destruct (rmatch _ _ _ _) as [r|] eqn:M; [exfalso|reflexivity].
  pose proof (staged_no_start _ _ _ _ fn Hs Hfn) as Hn. simpl in Hn.
  apply inline_rule_starts in M as [S _].
  rewrite (Hn u v E Hv) in S. discriminate.
Qed.

Lemma inline_on_hit first prev q c n ps :
  staged only first q ((c, n) :: ps) -> (first = true -> prev = None) ->
  is_inline fn c = true ->
  call_text c <> [] /\
  rmatch false (inline_rule fn) (prev_after prev q)
    (call_text c ++ n ++ with_calls ps) = Some (n ++ with_calls ps).
Proof.
  intros Hs Hprev Hh.
  destruct (staged_head _ _ _ _ _ _ Hs) as (Hc & Hb & Ha & _).
  destruct (targeted_visible fn Hfn) as [Hvis Hne].
  destruct c as [|g args w|]; try discriminate.
  simpl in Hh. apply bool_decide_eq_true in Hh as ->.
  split.
  { simpl. destruct fn; [congruence|discriminate]. }
  simpl in Hc. repeat (apply andb_true_iff in Hc as [Hc ?]).
  unfold call_text. rewrite <- !app_assoc.
  change ((RP :: SEMI :: w) ++ n ++ with_calls ps)
    with (RP :: SEMI :: w ++ n ++ with_calls ps).
  apply inline_rule_hit; auto.
  simpl in Ha. apply orb_true_iff in Ha as [Ha|Ha].
  - apply andb_true_iff in Ha as [H2 H3].
    destruct ps, n; try discriminate. reflexivity.
  - apply andb_true_iff in Ha as [H2 H3]. apply negb_true_iff in H3.
    now apply starts_visible_app.
Qed.

Lemma inline_on_miss first prev q c n ps :
  staged only first q ((c, n) :: ps) -> (first = true -> prev = None) ->
  is_inline fn c = false ->
  silent false (inline_rule fn) (prev_after prev q) (call_text c)
    (n ++ with_calls ps).
Proof.
  intros Hs Hprev Hh u v E Hv.
  destruct (rmatch _ _ _ _) as [r|] eqn:M; [exfalso|reflexivity].
  destruct (staged_head _ _ _ _ _ _ Hs) as (Hc & Hb & Ha & Ho).
  apply only_not_line in Ho.
  apply inline_rule_starts in M as (S & v' & E1 & M).
  destruct c as [|g args w|x y z]; [discriminate| |].
  - destruct (inline_start fn g args w _ _ _ Hfn Hc E Hv S) as [_ <-].
    simpl in Hh. now apply bool_decide_eq_false in Hh.
  - destruct (callback_start fn x y z _ _ _ Hfn Hc E Hv S) as (-> & _ & ->).
    rewrite <- !app_assoc in E1. apply app_inv_head in E1. subst v'.
    simpl in Hc. repeat (apply andb_true_iff in Hc as [Hc ?]).
    cbn [app] in M.
    rewrite rmatch_call_unterminated in M; [discriminate|assumption|].
    destruct z; [reflexivity|assumption].
Qed.

Lemma strip_inline_calls q ps :
  staged only true q ps ->
  strip_inline fn (q ++ with_calls ps) = q ++ after_sub (is_inline fn) [] ps.
Proof.
  intros Hs. unfold strip_inline.
  apply (sub_calls false (inline_rule fn) [] (is_inline fn) only)
    with (first := true); auto.
  - apply inline_at_end.
  - apply inline_before_call.
  - apply inline_on_hit.
  - apply inline_on_miss.
Qed.

End InlineStage.

(** ** The rule for callbacks, over a text with calls *)

Section CatchStage.

Import Re Str.

Variable only : call -> bool.
Hypothesis only_callback : forall c, only c = true -> is_callback c = true.

Lemma catch_rule_hit prev x y z rest :
  free_of RP x = true -> free_of RP y = true -> free_of RP z = true ->
  no_opener y = true ->
  rmatch false catch_rule prev (CATCH ++ x ++ LOG ++ y ++ RP :: z ++ RP :: rest)
  = Some rest.
Proof.
  intros Hx Hy Hz Hno.
  unfold catch_rule. rewrite rmatch_lits, rmatch_many.
  apply greedy_first.
  - exact Hx.
  - rewrite rmatch_lits, rmatch_args by exact Hy.
    simpl app. now rewrite rmatch_args.
  - intros w' s' Es Hne Hw'.
    destruct (rmatch _ _ _ s') as [r|] eqn:E; [exfalso|reflexivity].
    apply rmatch_lits_startswith in E.
    assert (Hn : no_start LOG (drop 1 LOG ++ y) (RP :: z ++ RP :: rest)).
    { apply no_start_app; [apply no_start_tail; now left|].
      apply no_start_intro; [apply no_opener_free; [now left|exact Hno]|].
      apply overlap_close. now left. }
    destruct s' as [|c0 s']; [discriminate|].
    rewrite (app_assoc LOG y) in Es.
    destruct (position_split _ _ _ _ Es ltac:(discriminate))
      as [(v1 & E1 & H1 & E2)|(u2 & E1 & E2)].
    + destruct w' as [|c1 w']; [congruence|].
      change (LOG ++ y) with (99 :: (drop 1 LOG ++ y)) in E1.
      injection E1 as _ E1. rewrite E2 in E.
      rewrite (Hn w' v1 E1 H1) in E. discriminate.
    + destruct u2 as [|c1 u2].
      * rewrite app_nil_l in E2. rewrite <- E2 in E. discriminate.
      * injection E2 as <- _. rewrite E1 in Hw'.
        rewrite forallb_app in Hw'. apply andb_true_iff in Hw' as [_ Hw'].
        discriminate.
Qed.

Lemma catch_at_end first prev q :
  staged only first q [] -> sub_from false catch_rule NOOP prev O q = q.
Proof.
  intros Hs. apply catch_rule_absent.
  apply (staged_free only first q [] LOG Hs). now left.
Qed.

Lemma catch_before_call first prev q c n ps :
  staged only first q ((c, n) :: ps) ->
  silent false catch_rule prev q (call_text c ++ n ++ with_calls ps).
Proof.
  intros Hs u v E Hv.
  destruct (rmatch _ _ _ _) as [r|] eqn:M; [exfalso|reflexivity].
  destruct (staged_head _ _ _ _ _ _ Hs) as (Hc & _ & _ & Ho).
  apply only_callback in Ho. destruct c as [| |x y z]; try discriminate.
  pose proof (staged_closed _ _ _ _ _ _ _ _ Hs) as Hcl.
  pose proof (staged_no_start _ _ _ _ LOG Hs (or_introl eq_refl)) as Hn.
  set (rest := with_calls ((Callback x y z, n) :: ps)) in *.
  change (call_text (Callback x y z) ++ n ++ with_calls ps) with rest in M.
  pose proof (rmatch_lits_startswith _ _ _ _ _ _ M) as S.
  apply catch_rule_inv in M as (x' & v' & E1 & Hx').
  (* the [.catch(] lies inside the text before the callback *)
  destruct (le_lt_dec (length CATCH) (length v)) as [L|L].
  2:{ apply startswith_drop in S; [|exact L].
      assert (O : overlap_free CATCH rest = true).
      { unfold rest. cbn [with_calls call_text]. rewrite <- app_assoc.
        apply overlap_catch_catch. }
      rewrite (overlap_free_spec CATCH rest (length v) O) in S; [discriminate|].
      destruct v; [congruence|simpl in *; lia]. }
  apply startswith_short in S; [|exact L].
  destruct (startswith_inv _ _ S) as (v0 & ->).
  (* and is closed there *)
  rewrite E in Hcl. apply closed_catch_suffix in Hcl.
  apply closed_catch_here in Hcl; [|exact S].
  rewrite free_of_app in Hcl. change (free_of RP CATCH) with true in Hcl.
  simpl in Hcl.
  rewrite <- app_assoc in E1. apply app_inv_head in E1.
  destruct (position_split v0 rest x' (LOG ++ v') E1 ltac:(discriminate))
    as [(v1 & -> & H1 & E2)|(u2 & -> & _)].
  - pose proof (startswith_app LOG v') as S2. rewrite E2 in S2.
    rewrite (Hn (u ++ CATCH ++ x') v1) in S2; [discriminate| |exact H1].
    rewrite E. now rewrite <- !app_assoc.
  - rewrite free_of_app in Hx'. apply andb_true_iff in Hx' as [Hx' _].
    congruence.
Qed.

Lemma catch_on_hit first prev q c n ps :
  staged only first q ((c, n) :: ps) -> (first = true -> prev = None) ->
  is_callback c = true ->
  call_text c <> [] /\
  rmatch false catch_rule (prev_after prev q)
    (call_text c ++ n ++ with_calls ps) = Some (n ++ with_calls ps).
Proof.
  intros Hs Hprev Hh.
  destruct (staged_head _ _ _ _ _ _ Hs) as (Hc & _ & _ & _).
  destruct c as [| |x y z]; try discriminate.
  split; [discriminate|].
  simpl in Hc. repeat (apply andb_true_iff in Hc as [Hc ?]).
  unfold call_text. rewrite <- !app_assoc.
  change ((RP :: z ++ [RP]) ++ n ++ with_calls ps)
    with (RP :: (z ++ [RP]) ++ n ++ with_calls ps).
  rewrite <- app_assoc.
  now apply catch_rule_hit.
Qed.

Lemma catch_on_miss first prev q c n ps :
  staged only first q ((c, n) :: ps) -> (first = true -> prev = None) ->
  is_callback c = false ->
  silent false catch_rule (prev_after prev q) (call_text c)
    (n ++ with_calls ps).
Proof.
  intros Hs _ Hh. destruct (staged_head _ _ _ _ _ _ Hs) as (_ & _ & _ & Ho).
  apply only_callback in Ho. congruence.
Qed.

Lemma neutralize_catch_calls q ps :
  staged only true q ps ->
  neutralize_catch (q ++ with_calls ps) = q ++ after_sub is_callback NOOP ps.
Proof.
  intros Hs. unfold neutralize_catch.
  apply (sub_calls false catch_rule NOOP is_callback only)
    with (first := true); auto.
  - apply catch_at_end.
  - apply catch_before_call.
  - apply catch_on_hit.
  - apply catch_on_miss.
Qed.

End CatchStage.

(** ** remove_console.py on a text with calls *)

Section Calls.

Lemma staged_drop only hit first q ps :
  (forall c, hit c = true -> is_callback c = false) ->
  staged only first q ps ->
  staged (fun c => only c && negb (hit c)) first
    (drop_calls hit q ps).1 (drop_calls hit q ps).2.
Proof.
  intros Hh (Hp & Hq & Ho). split; [|split].
  - now apply placed_drop.
  - now apply settled_drop.
  - now apply drop_only.
Qed.

Lemma is_line_call fn c : is_line fn c = true -> is_callback c = false.
Proof. destruct c; try discriminate. reflexivity. Qed.

Lemma is_inline_call fn c : is_inline fn c = true -> is_callback c = false.
Proof. destruct c; try discriminate. reflexivity. Qed.

Lemma placed_ok first q ps :
  placed first q ps = true -> forallb (fun cn => call_ok cn.1) ps = true.
Proof.
  revert first q. induction ps as [|[c n] ps IH]; intros first q H; [reflexivity|].
  simpl in H. apply andb_true_iff in H as [H H4].
  apply andb_true_iff in H as [H _]. apply andb_true_iff in H as [H1 _].
  simpl. rewrite H1. simpl. now apply (IH false n).
Qed.

Lemma after_sub_callbacks ps :
  forallb (fun cn => is_callback cn.1) ps = true ->
  after_sub is_callback NOOP ps = without_calls ps.
Proof.
  induction ps as [|[c n] ps IH]; [reflexivity|]. simpl.
  intros H. apply andb_true_iff in H as [H1 H2].
  rewrite H1, (IH H2). destruct c; try discriminate. reflexivity.
Qed.

Lemma only_callbacks only ps :
  (forall c, only c = true -> is_callback c = true) ->
  forallb (fun cn : call * text => only cn.1) ps = true ->
  forallb (fun cn : call * text => is_callback cn.1) ps = true.
Proof.
  intros H. rewrite !forallb_forall. intros Ho cn Hin. apply H. now apply Ho.
Qed.

Lemma is_line_left fn c : is_line fn c = true -> call_left c = [].
Proof. destruct c; try discriminate. reflexivity. Qed.

Lemma is_inline_left fn c : is_inline fn c = true -> call_left c = [].
Proof. destruct c; try discriminate. reflexivity. Qed.

Lemma remove_console_calls q ps :
  placed true q ps = true -> settled q ps = true ->
  remove_console_text (q ++ with_calls ps)
  = collapse_blank_lines (q ++ without_calls ps).
Proof.
  intros Hp Hq.
  assert (S0 : staged call_ok true q ps).
  { split; [exact Hp|split; [exact Hq|]]. now apply (placed_ok true q). }
  rewrite remove_console_stages.
  (* the calls alone on their line *)
  rewrite (strip_line_calls LOG (or_introl eq_refl) call_ok q ps S0).
  rewrite <- drop_whole.
  pose proof (staged_drop _ (is_line LOG) _ _ _ (is_line_call LOG) S0) as S1.
  pose proof (drop_without (is_line LOG) q ps (is_line_left LOG)) as W1.
  destruct (drop_calls (is_line LOG) q ps) as [q1 ps1]. cbn [fst snd] in *.
  rewrite (strip_line_calls WARN (or_intror eq_refl) _ q1 ps1 S1).
  rewrite <- drop_whole.
  pose proof (staged_drop _ (is_line WARN) _ _ _ (is_line_call WARN) S1) as S2.
  pose proof (drop_without (is_line WARN) q1 ps1 (is_line_left WARN)) as W2.
  destruct (drop_calls (is_line WARN) q1 ps1) as [q2 ps2]. cbn [fst snd] in *.
  (* the calls inside a line *)
  assert (N2 : forall c,
    call_ok c && negb (is_line LOG c) && negb (is_line WARN c) = true ->
    not_line c = true).
  { intros [g ws1 args ws2| |] H; try reflexivity. exfalso.
    apply andb_true_iff in H as [H H3]. apply andb_true_iff in H as [H1 H2].
    simpl in H1. repeat (apply andb_true_iff in H1 as [H1 ?]).
    apply is_targeted_spec in H1. simpl in H2, H3.
    apply negb_true_iff, bool_decide_eq_false in H2, H3.
    destruct H1; congruence. }
  rewrite (strip_inline_calls LOG (or_introl eq_refl) _ N2 q2 ps2 S2).
  rewrite <- drop_whole.
  pose proof (staged_drop _ (is_inline LOG) _ _ _ (is_inline_call LOG) S2) as S3.
  pose proof (drop_without (is_inline LOG) q2 ps2 (is_inline_left LOG)) as W3.
  destruct (drop_calls (is_inline LOG) q2 ps2) as [q3 ps3]. cbn [fst snd] in *.
  assert (N3 : forall c,
    call_ok c && negb (is_line LOG c) && negb (is_line WARN c)
    && negb (is_inline LOG c) = true -> not_line c = true).
  { intros c H. apply andb_true_iff in H as [H _]. now apply N2. }
  rewrite (strip_inline_calls WARN (or_intror eq_refl) _ N3 q3 ps3 S3).
  rewrite <- drop_whole.
  pose proof (staged_drop _ (is_inline WARN) _ _ _ (is_inline_call WARN) S3) as S4.
  pose proof (drop_without (is_inline WARN) q3 ps3 (is_inline_left WARN)) as W4.
  destruct (drop_calls (is_inline WARN) q3 ps3) as [q4 ps4]. cbn [fst snd] in *.
  (* the callbacks *)
  assert (N4 : forall c,
    call_ok c && negb (is_line LOG c) && negb (is_line WARN c)
    && negb (is_inline LOG c) && negb (is_inline WARN c) = true ->
    is_callback c = true).
  { intros [g ws1 args ws2|g args w|] H; try reflexivity; exfalso.
    - apply andb_true_iff in H as [H _]. apply andb_true_iff in H as [H _].
      apply N2 in H. discriminate.
    - apply andb_true_iff in H as [H H5]. apply andb_true_iff in H as [H H4].
      apply andb_true_iff in H as [H _]. apply andb_true_iff in H as [H1 _].
      simpl in H1. repeat (apply andb_true_iff in H1 as [H1 ?]).
      apply is_targeted_spec in H1. simpl in H4, H5.
      apply negb_true_iff, bool_decide_eq_false in H4, H5.
      destruct H1; congruence. }
  rewrite (neutralize_catch_calls _ N4 q4 ps4 S4).
  rewrite after_sub_callbacks
    by (apply (only_callbacks _ ps4 N4); now destruct S4 as (_ & _ & ?)).
  now rewrite W4, W3, W2, W1.
Qed.

End Calls.

Section CallsMore.

Lemma without_calls_app ps1 c n ps2 :
  without_calls (ps1 ++ (c, n) :: ps2)
  = without_calls ps1 ++ call_left c ++ n ++ without_calls ps2.
Proof.
  induction ps1 as [|[c' n'] ps1 IH]; [reflexivity|].
  simpl. rewrite IH. now rewrite <- !app_assoc.
Qed.

Lemma placed_inline_before ps1 : forall first q fn args w n ps2,
  placed first q (ps1 ++ (Inline fn args w, n) :: ps2) = true ->
  mid_line (q ++ without_calls ps1) = true.
Proof.
  induction ps1 as [|[c' n'] ps1 IH]; intros first q fn args w n ps2 H.
  - cbn [app placed fits_before without_calls] in H |- *. rewrite app_nil_r.
    apply andb_true_iff in H as [H _]. apply andb_true_iff in H as [H _].
    apply andb_true_iff in H as [_ H]. exact H.
  - change (((c', n') :: ps1) ++ (Inline fn args w, n) :: ps2)
      with ((c', n') :: (ps1 ++ (Inline fn args w, n) :: ps2)) in H.
    cbn [placed] in H. apply andb_true_iff in H as [_ H].
    apply IH in H. cbn [without_calls].
    rewrite (app_assoc q (call_left c')).
    now apply mid_line_app.
Qed.

Lemma placed_inline_after ps1 : forall first q fn args w n ps2,
  placed first q (ps1 ++ (Inline fn args w, n) :: ps2) = true ->
  starts_visible n = true.
Proof.
  induction ps1 as [|[c' n'] ps1 IH]; intros first q fn args w n ps2 H.
  - cbn [app placed fits_after] in H.
    apply andb_true_iff in H as [H _]. apply andb_true_iff in H as [_ H].
    apply orb_true_iff in H as [H|H].
    + apply andb_true_iff in H as [_ H]. now destruct n.
    + now apply andb_true_iff in H as [H _].
  - change (((c', n') :: ps1) ++ (Inline fn args w, n) :: ps2)
      with ((c', n') :: (ps1 ++ (Inline fn args w, n) :: ps2)) in H.
    cbn [placed] in H. apply andb_true_iff in H as [_ H].
    now apply IH in H.
Qed.

End CallsMore.

(** * The transformation raises nothing *)

Section Raises.

Import Re Str.

Lemma remove_console_run_ok content :
  remove_console_run content = Ok (remove_console_text content).
Proof. reflexivity. Qed.

Lemma clean_line_run_ok line : clean_line_run line = Ok (clean_line line).
Proof.
  unfold clean_line_run, clean_line.
  destruct (_ || _); [|reflexivity]. destruct (_ || _); reflexivity.
Qed.

Lemma clean_lines_run_ok lines : forall cleaned,
  clean_lines_run lines cleaned = Ok (clean_lines lines cleaned).
Proof.
  induction lines as [|l lines IH]; intros cleaned; [reflexivity|].
  simpl. rewrite clean_line_run_ok. simpl. apply IH.
Qed.

Lemma clean_console_run_ok content :
  clean_console_run content = Ok (clean_console_text content).
Proof.
  unfold clean_console_run, clean_console_text.
  now rewrite clean_lines_run_ok.
Qed.

(** *** The characters of the output *)

Lemma sub_from_in ml p repl c s : forall prev skip,
  In c (sub_from ml p repl prev skip s) -> In c s \/ In c repl.
Proof.
  induction s as [|x s IH]; intros prev skip H.
  - simpl in H. destruct skip; [|destruct H].
    destruct (rmatch ml p prev []); [now right|destruct H].
  - cbn [sub_from] in H. destruct skip as [|k].
    + destruct (rmatch ml p prev (x :: s)) as [rest|].
      * destruct (length (x :: s) - length rest)%nat.
        -- apply in_app_or in H as [H|H]; [now right|].
           destruct H as [->|H]; [left; now left|].
           destruct (IH _ _ H); [left; now right|now right].
        -- apply in_app_or in H as [H|H]; [now right|].
           destruct (IH _ _ H); [left; now right|now right].
      * destruct H as [->|H]; [left; now left|].
        destruct (IH _ _ H); [left; now right|now right].
    + destruct (IH _ _ H); [left; now right|now right].
Qed.

Lemma is_str_in s : is_str s = true <-> forall c, In c s -> c < 1114112.
Proof.
  unfold is_str. rewrite forallb_forall. split; intros H c Hc.
  - now apply N.ltb_lt, H.
  - now apply N.ltb_lt, H.
Qed.

Lemma is_str_sub pattern repl s ml :
  is_str repl = true -> is_str s = true -> is_str (sub pattern repl s ml) = true.
Proof.
  rewrite !is_str_in. intros Hr Hs c Hc.
  unfold sub in Hc. apply sub_from_in in Hc as [Hc|Hc]; auto.
Qed.

Lemma is_str_remove_console s :
  is_str s = true -> is_str (remove_console_text s) = true.
Proof.
  intros H. unfold remove_console_text.
  repeat (apply is_str_sub; [reflexivity|]). exact H.
Qed.

Lemma split_in c s : forall l, In l (split NL s) -> In c l -> In c s.
Proof.
  induction s as [|x s IH]; intros l Hl Hc.
  - simpl in Hl. destruct Hl as [<-|[]]. destruct Hc.
  - simpl in Hl. destruct (x =? NL).
    + destruct Hl as [<-|Hl]; [destruct Hc|]. right. now apply (IH l).
    + destruct (split NL s) as [|l0 ls] eqn:E.
      * destruct Hl as [<-|[]]. destruct Hc as [->|[]]. now left.
      * destruct Hl as [<-|Hl].
        -- destruct Hc as [->|Hc]; [now left|]. right. apply (IH l0); [now left|exact Hc].
        -- right. apply (IH l); [now right|exact Hc].
Qed.

Lemma join_in c sep ls :
  In c (join sep ls) -> In c sep \/ exists l, In l ls /\ In c l.
Proof.
  induction ls as [|l ls IH]; [intros []|].
  destruct ls as [|l' ls].
  - simpl. intros H. right. exists l. split; [now left|exact H].
  - rewrite join_cons. intros H.
    apply in_app_or in H as [H|H]; [right; exists l; split; [now left|exact H]|].
    apply in_app_or in H as [H|H]; [now left|].
    destruct (IH H) as [Hs|(k & Hk & Hc)]; [now left|].
    right. exists k. split; [now right|exact Hc].
Qed.

Lemma clean_line_in c line l :
  In l (clean_line line) -> In c l -> In c line.
Proof.
  unfold clean_line. destruct (_ || _).
  - destruct (_ || _); [intros []|].
    destruct (strip _); [intros []|].
    intros [<-|[]] Hc.
    unfold sub in Hc.
    apply sub_from_in in Hc as [Hc|[]].
    apply sub_from_in in Hc as [Hc|[]]. exact Hc.
  - intros [<-|[]] Hc. exact Hc.
Qed.

Lemma is_str_clean_console s :
  is_str s = true -> is_str (clean_console_text s) = true.
Proof.
  rewrite !is_str_in. intros Hs c Hc.
  unfold clean_console_text in Hc.
  apply join_in in Hc as [[<-|[]]|(l & Hl & Hc)]; [reflexivity|].
  rewrite clean_lines_acc in Hl. simpl in Hl.
  apply in_concat in Hl as (ls & Hls & Hl).
  apply in_map_iff in Hls as (line & <- & Hline).
  apply Hs, (split_in c s line Hline).
  now apply (clean_line_in c line l).
Qed.

End Raises.

(** * The claims *)

(** ** C1 *)




(** ** C2 *)

(** C2 at a line that starts with a targeted call and goes on with
    another statement: clean_console.py takes the line for a standalone
    call and drops it whole, [doMore();] included; remove_console.py
    excises the call with the white space after it and keeps [doMore();]. *)
Theorem C2_clean_console_drops_rest_of_line :
  clean_console_text (lit "console.log(x); doMore();") = [] /\
  remove_console_text (lit "console.log(x); doMore();") = lit "doMore();".
Proof. vm_compute. split; reflexivity. Qed.

(** ** C3 *)




(** ** C4 *)




(** ** C5 *)

(** C5, as stated, fails for remove_console.py: its output for the three
    lines is not the two lines that are kept. *)
Lemma C5_counterexample :
  remove_console_text (Str.join [NL] scenario_lines)
  <> Str.join [NL] scenario_kept.
Proof. vm_compute. discriminate. Qed.

(** C5, amended. For the three lines of the scenario, clean_console.py
    writes exactly the first and the third line; remove_console.py writes
    the first line, an empty line and the third line. *)
Theorem C5_scenario :
  clean_console_text (Str.join [NL] scenario_lines)
  = Str.join [NL] scenario_kept /\
  Str.split NL (remove_console_text (Str.join [NL] scenario_lines))
  = [lit "let x = 1;"; [];
     lit "console.error(" ++ [DQ] ++ lit "fail" ++ [DQ] ++ lit ");"].
Proof. vm_compute. split; reflexivity. Qed.

(** ** C6 *)




(** ** C7 *)

(** C7. The collapse of blank lines is idempotent: applying the
    substitution [\n\s*\n\s*\n -> \n\n] to its own result changes
    nothing. *)
Theorem C7_collapse_idempotent (s : text) :
  collapse_blank_lines (collapse_blank_lines s) = collapse_blank_lines s.
Proof. apply collapse_fixed, collapse_blank_ok. Qed.

(** ** C8 *)

(** C8, as stated, fails: on the three lines of the scenario of C5 the
    two scripts write different texts. *)
Lemma C8_counterexample :
  clean_console_text (Str.join [NL] scenario_lines)
  <> remove_console_text (Str.join [NL] scenario_lines).
Proof. vm_compute. discriminate. Qed.

(** C8, amended. The two scripts write the same text, the input itself,
    for every text without targeted opener in which no stretch of white
    space holds more than two line breaks. *)
Theorem C8_scripts_agree_on_clean_text (s : text) :
  no_opener s = true -> blank_ok s = true ->
  clean_console_text s = remove_console_text s /\ remove_console_text s = s.
Proof.
  intros Hno Hok.
  rewrite clean_console_no_opener, remove_console_no_opener by exact Hno.
  rewrite collapse_fixed by exact Hok. split; reflexivity.
Qed.

(** C8 on the two lines that the scenario keeps. *)
Lemma C8_scripts_agree_on_clean_text_witness :
  clean_console_text (Str.join [NL] scenario_kept)
  = remove_console_text (Str.join [NL] scenario_kept) /\
  remove_console_text (Str.join [NL] scenario_kept) = Str.join [NL] scenario_kept.
Proof.
  exact (C8_scripts_agree_on_clean_text (Str.join [NL] scenario_kept)
           eq_refl eq_refl).
Defined.

(** ** C9 *)



(** ** C10 *)




(** * Further properties of the two scripts *)

(** ** What a substitution can add *)

Section Weight.

Import Re.

Variable f : N -> nat.
Variable lb : cclass -> nat.
Hypothesis lb_sound : forall k c, in_class k c = true -> (lb k <= f c)%nat.

Lemma weight_app u v : weight f (u ++ v) = (weight f u + weight f v)%nat.
Proof. induction u as [|c u IH]; simpl; [reflexivity|]. rewrite IH. lia. Qed.

(** What a pattern matches weighs at least its lower bound. *)
Lemma rmatch_weight ml p prev s r :
  rmatch ml p prev s = Some r ->
  (weight f r + min_weight lb p <= weight f s)%nat.
Proof.
  revert prev s. induction p as [|a p IH]; intros prev s H.
  - injection H as <-. simpl. lia.
  - destruct a as [k|k| |]; cbn [rmatch] in H; cbn [min_weight].
    + destruct s as [|c s]; [discriminate|].
      destruct (in_class k c) eqn:E; [|discriminate].
      apply IH in H. pose proof (lb_sound _ _ E). simpl. lia.
    + destruct (greedy_inv _ _ _ _ _ H) as (w & s' & -> & _ & Hc).
      apply IH in Hc. rewrite weight_app. lia.
    + destruct (at_bol ml prev); [eauto|discriminate].
    + destruct (at_eol ml s); [eauto|discriminate].
Qed.

Lemma drop_match (s m rest : text) :
  s = m ++ rest -> drop (length s - length rest) s = rest.
Proof.
  intros ->. rewrite length_app.
  replace (length m + length rest - length rest)%nat with (length m) by lia.
  apply drop_app_length.
Qed.

(** A substitution whose replacement weighs no more than what the
    pattern matches does not add weight. *)
Lemma sub_from_weight ml p repl :
  (weight f repl <= min_weight lb p)%nat ->
  forall s prev skip,
    (weight f (sub_from ml p repl prev skip s) <= weight f (drop skip s))%nat.
Proof.
  intros Hrepl. induction s as [|c s IH]; intros prev skip.
  - cbn [sub_from]. destruct skip; [|simpl; lia].
    destruct (rmatch ml p prev []) as [r|] eqn:E; [|simpl; lia].
    apply rmatch_weight in E. simpl in *. lia.
  - cbn [sub_from]. destruct skip as [|k].
    + destruct (rmatch ml p prev (c :: s)) as [rest|] eqn:E.
      * pose proof (rmatch_weight _ _ _ _ _ E) as Hw.
        destruct (rmatch_suffix _ _ _ _ _ E) as [m Em].
        pose proof (drop_match _ _ _ Em) as Hd.
        destruct (length (c :: s) - length rest)%nat as [|k] eqn:En.
        -- simpl in Hd. rewrite <- Hd in Hw.
           rewrite weight_app. specialize (IH (Some c) O).
           rewrite drop_0 in IH. simpl in *. lia.
        -- simpl in Hd. rewrite weight_app. specialize (IH (Some c) k).
           rewrite Hd in IH. simpl in *. lia.
      * specialize (IH (Some c) O). rewrite drop_0 in IH. simpl in *. lia.
    + apply IH.
Qed.

Lemma sub_weight pattern repl s ml :
  (weight f repl <= min_weight lb (compile pattern))%nat ->
  (weight f (Re.sub pattern repl s ml) <= weight f s)%nat.
Proof.
  intros H. unfold Re.sub.
  apply (sub_from_weight ml (compile pattern) repl H s None O).
Qed.

End Weight.

Lemma weight_one s : weight one s = length s.
Proof. induction s as [|c s IH]; simpl; [reflexivity|]. now rewrite IH. Qed.

Lemma weight_is_nl s : weight is_nl s = count_nl s.
Proof.
  induction s as [|c s IH]; [reflexivity|].
  rewrite count_nl_cons. simpl. now rewrite IH.
Qed.

Lemma one_bound (k : Re.cclass) c :
  Re.in_class k c = true -> ((fun _ => 1) k <= one c)%nat.
Proof. intros _. unfold one. lia. Qed.

Lemma nl_bound_sound k c : Re.in_class k c = true -> (nl_bound k <= is_nl c)%nat.
Proof.
  destruct k as [a| |a]; simpl; try lia.
  intros H. apply N.eqb_eq in H as ->. lia.
Qed.

(** ** The transformations only take text away *)

Ltac sub_shrinks bound :=
  eapply Nat.le_trans;
  [apply (sub_weight _ _ bound); vm_compute; lia|].

Lemma remove_console_length s :
  (weight one (remove_console_text s) <= weight one s)%nat.
Proof.
  unfold remove_console_text.
  do 6 sub_shrinks one_bound. apply Nat.le_refl.
Qed.

Lemma remove_console_breaks s :
  (weight is_nl (remove_console_text s) <= weight is_nl s)%nat.
Proof.
  unfold remove_console_text.
  do 6 sub_shrinks nl_bound_sound. apply Nat.le_refl.
Qed.

(** X1. remove_console.py never makes a text longer and never adds a
    line break: every substitution replaces a match by something that is
    no longer and has no more line breaks. *)
Theorem X1_remove_console_only_shrinks (s : text) :
  (length (remove_console_text s) <= length s)%nat /\
  (count_nl (remove_console_text s) <= count_nl s)%nat.
Proof.
  rewrite <- !weight_one, <- !weight_is_nl.
  split; [apply remove_console_length|apply remove_console_breaks].
Qed.

Section CleanShrinks.

Import Str.

Lemma clean_line_shape line :
  clean_line line = [] \/
  exists l', clean_line line = [l'] /\
             (length l' <= length line)%nat /\ (count_nl l' <= count_nl line)%nat.
Proof.
  unfold clean_line.
  destruct (_ || _); [|right; exists line; auto].
  destruct (_ || _); [now left|].
  set (l' := Re.sub _ [] (Re.sub _ [] line false) false).
  destruct (strip l'); [now left|].
  right. exists l'. split; [reflexivity|].
  rewrite <- !weight_one, <- !weight_is_nl. unfold l'. split.
  - do 2 sub_shrinks one_bound. apply Nat.le_refl.
  - do 2 sub_shrinks nl_bound_sound. apply Nat.le_refl.
Qed.

Lemma split_lines_free s : Forall (fun l => count_nl l = O) (split NL s).
Proof.
  induction s as [|c s IH]; [repeat constructor|].
  simpl. destruct (c =? NL) eqn:E.
  - constructor; [reflexivity|exact IH].
  - destruct (split NL s) as [|l ls] eqn:Es;
      [now destruct (split_nonempty NL s)|].
    inversion IH as [|? ? Hl Hls]; subst.
    constructor; [|exact Hls]. rewrite count_nl_cons, E. simpl. exact Hl.
Qed.

Lemma joined_length_join ls : length (join [NL] ls) = joined_length ls.
Proof.
  induction ls as [|l ls IH]; [reflexivity|].
  destruct ls as [|l' ls]; [reflexivity|].
  rewrite join_cons, !length_app, IH. simpl. lia.
Qed.

Lemma joined_length_cons l ls : (joined_length ls <= joined_length (l :: ls))%nat.
Proof. destruct ls; simpl; lia. Qed.

Lemma clean_lines_shrink ls :
  (joined_length (clean_lines ls []) <= joined_length ls)%nat /\
  (length (clean_lines ls []) <= length ls)%nat /\
  (Forall (fun l => count_nl l = O) ls ->
   Forall (fun l => count_nl l = O) (clean_lines ls [])).
Proof.
  induction ls as [|l ls (IH1 & IH2 & IH3)]; [repeat split; auto|].
  rewrite clean_lines_cons.
  destruct (clean_line_shape l) as [->|(l' & -> & Hlen & Hnl)].
  - simpl app. pose proof (joined_length_cons l ls) as Hj.
    repeat split; [lia|simpl; lia|].
    intros H. inversion H; subst. auto.
  - simpl app. repeat split.
    + destruct (clean_lines ls []) as [|k ks] eqn:E.
      * destruct ls; simpl; lia.
      * destruct ls as [|l0 ls]; [simpl in IH2; lia|].
        cbn [joined_length] in *. lia.
    + simpl. lia.
    + intros H. inversion H; subst. constructor; [lia|auto].
Qed.

End CleanShrinks.

(** X2. clean_console.py never makes a text longer and never adds a
    line: each line is dropped, kept, or kept with calls taken out. *)
Theorem X2_clean_console_only_shrinks (s : text) :
  (length (clean_console_text s) <= length s)%nat /\
  (length (Str.split NL (clean_console_text s)) <= length (Str.split NL s))%nat.
Proof.
  unfold clean_console_text.
  destruct (clean_lines_shrink (Str.split NL s)) as (H1 & H2 & H3).
  specialize (H3 (split_lines_free s)). split.
  - rewrite joined_length_join. rewrite <- (join_split s) at 2.
    now rewrite joined_length_join.
  - destruct (clean_lines (Str.split NL s) []) as [|l ls] eqn:E.
    + simpl. destruct (Str.split NL s) eqn:Es;
        [now destruct (split_nonempty NL s)|simpl; lia].
    + rewrite split_join; [exact H2|discriminate|].
      apply forallb_forall. intros k Hk.
      rewrite Forall_forall in H3. apply count_nl_zero_free, H3.
      now apply list_elem_of_In.
Qed.

(** ** Texts without targeted call *)

(** X3. A text without [console.log(] and without [console.warn(] is
    written back unchanged by clean_console.py, blank lines and line
    ends included; remove_console.py only collapses its blank lines. *)
Theorem X3_untargeted_text (s : text) :
  no_opener s = true ->
  clean_console_text s = s /\
  remove_console_text s = collapse_blank_lines s.
Proof.
  intros H. split.
  - now apply clean_console_no_opener.
  - now apply remove_console_no_opener.
Qed.

(** X3 on two statements three blank lines apart, with a last line
    break. *)
Lemma X3_untargeted_text_witness :
  let s := lit "a();" ++ [NL; NL; NL; NL] ++ lit "console.error(e);" ++ [NL] in
  clean_console_text s = s /\
  remove_console_text s = lit "a();" ++ [NL; NL] ++ lit "console.error(e);" ++ [NL].
Proof.
  exact (X3_untargeted_text
           (lit "a();" ++ [NL; NL; NL; NL] ++ lit "console.error(e);" ++ [NL])
           eq_refl).
Defined.

(** X11. When a run of either script leaves no targeted opener in the
    text, a second run changes nothing. *)
Theorem X11_second_run_is_idle (s : text) :
  (no_opener (remove_console_text s) = true ->
   remove_console_text (remove_console_text s) = remove_console_text s) /\
  (no_opener (clean_console_text s) = true ->
   clean_console_text (clean_console_text s) = clean_console_text s).
Proof.
  split; intros H.
  - rewrite (remove_console_no_opener _ H).
    rewrite remove_console_stages. apply collapse_fixed, collapse_blank_ok.
  - now apply clean_console_no_opener.
Qed.

(** X11 on the three lines of the scenario. *)
Lemma X11_second_run_is_idle_witness :
  remove_console_text (remove_console_text (Str.join [NL] scenario_lines))
  = remove_console_text (Str.join [NL] scenario_lines) /\
  clean_console_text (clean_console_text (Str.join [NL] scenario_lines))
  = clean_console_text (Str.join [NL] scenario_lines).
Proof.
  destruct (X11_second_run_is_idle (Str.join [NL] scenario_lines)) as [Hr Hc].
  split; [exact (Hr eq_refl)|exact (Hc eq_refl)].
Defined.

(** ** Lines that clean_console.py skips or shortens *)

Section CleanMore.

Import Str.

Lemma lstrip_app_visible x y :
  starts_visible y = true -> y <> [] -> lstrip (x ++ y) = lstrip x ++ y.
Proof.
  intros Hy Hne. induction x as [|c x IH]; simpl.
  - destruct y as [|d y]; [congruence|].
    simpl in *. apply negb_true_iff in Hy. now rewrite Hy.
  - destruct (isspace c); [exact IH|reflexivity].
Qed.

Lemma rstrip_app_visible u v :
  ends_visible u = true -> u <> [] -> rstrip (u ++ v) = u ++ rstrip v.
Proof.
  intros Hu Hne. unfold rstrip. rewrite rev_app_distr.
  rewrite lstrip_app_visible.
  - now rewrite rev_app_distr, rev_involutive.
  - exact Hu.
  - intros E. apply Hne. apply (f_equal (@rev N)) in E.
    now rewrite rev_involutive in E.
Qed.

Lemma targeted_ends_visible fn : targeted fn -> ends_visible fn = true.
Proof. intros [-> | ->]; reflexivity. Qed.

(** A line whose first visible text is a targeted opener is skipped,
    whatever follows the opener. *)
Lemma clean_line_opener_first fn ws rest :
  targeted fn -> all_space ws = true -> clean_line (ws ++ fn ++ rest) = [].
Proof.
  intros Hfn Hws. destruct (targeted_shape _ Hfn) as [Hv Hne].
  unfold clean_line. fold LOG WARN. unfold strip.
  rewrite lstrip_app; [|exact Hws|destruct fn; [congruence|exact Hv]].
  rewrite rstrip_app_visible by (try apply targeted_ends_visible; assumption).
  destruct Hfn as [-> | ->].
  - rewrite contains_occurrence, startswith_app. reflexivity.
  - rewrite (contains_occurrence WARN), (startswith_app WARN).
    now rewrite !orb_true_r.
Qed.

Lemma startswith_rstrip g u :
  startswith g (rstrip u) = true -> startswith g u = true.
Proof.
  intros H. rewrite (trailing_split u). now apply startswith_mono.
Qed.

Lemma leading_space_before_visible a1 x r :
  isspace x = false ->
  (length (leading_space (a1 ++ x :: r)) <= length a1)%nat.
Proof.
  intros Hx. induction a1 as [|c a1 IH]; simpl.
  - rewrite Hx. simpl. lia.
  - destruct (isspace c); simpl; lia.
Qed.

Lemma strip_nil_blank u : strip u = [] -> all_space u = true.
Proof.
  unfold strip, rstrip. intros H.
  apply (f_equal (@rev N)) in H. rewrite rev_involutive in H. simpl in H.
  assert (Hb : all_space (lstrip u) = true).
  { rewrite <- all_space_rev.
    clear -H. induction (rev (lstrip u)) as [|c l IH]; [reflexivity|].
    simpl in *. destruct (isspace c); [now apply IH|discriminate]. }
  pose proof (lstrip_visible_start u) as Hv.
  rewrite (leading_lstrip u). unfold all_space. rewrite forallb_app.
  fold (all_space (leading_space u)) (all_space (lstrip u)).
  now rewrite leading_space_all, Hb.
Qed.

(** A line with a targeted call after visible content: the call, its
    terminator and the white space after it are taken out. *)
Lemma clean_line_inline fn a1 x a2 args w b :
  targeted fn -> isspace x = false ->
  free_of RP args = true -> all_space w = true -> starts_visible b = true ->
  let a := a1 ++ x :: a2 in
  let line := a ++ fn ++ args ++ RP :: SEMI :: w ++ b in
  occs LOG line ++ occs WARN line = [length a] ->
  no_opener (a ++ b) = true ->
  clean_line line = [a ++ b].
Proof.
  intros Hfn Hx Hargs Hw Hb a line Ho Hno.
  destruct (targeted_shape _ Hfn) as [Hv Hne].
  assert (Hin : In (length a) (occs fn line)).
  { apply (occ_at fn line a (fn ++ args ++ RP :: SEMI :: w ++ b));
      [reflexivity|apply startswith_app]. }
  destruct (sole_opener fn line _ Hfn Hin Ho) as [Hsole Hother].
  pose proof (no_opener_inv _ Hno) as Hg.
  assert (Hstart : forall g, targeted g -> startswith g (strip line) = false).
  { intros g Hgt. destruct (startswith g (strip line)) eqn:E; [|reflexivity].
    exfalso. apply startswith_rstrip in E.
    pose proof (occ_at g line _ _ (leading_lstrip line) E) as Hocc.
    pose proof (leading_space_before_visible a1 x
                  (a2 ++ fn ++ args ++ RP :: SEMI :: w ++ b) Hx) as Hlen.
    assert (El : line = a1 ++ x :: a2 ++ fn ++ args ++ RP :: SEMI :: w ++ b).
    { unfold line, a. now rewrite <- app_assoc. }
    rewrite <- El in Hlen.
    destruct (decide (g = fn)) as [->|Hd].
    - rewrite Hsole in Hocc. destruct Hocc as [Hocc|[]].
      unfold a in Hocc. rewrite length_app in Hocc. simpl in Hocc. lia.
    - specialize (Hother g Hgt Hd).
      rewrite (leading_lstrip line) in Hother.
      rewrite (contains_app_r g _ _ (contains_here _ _ E)) in Hother.
      discriminate. }
  assert (Hsub : strip_inline WARN (strip_inline LOG line) = a ++ b).
  { destruct Hfn as [-> | ->].
    - pose proof (strip_inline_hit LOG eq_refl Hne a args w b Hargs Hw Hb Hsole)
        as E.
      fold line in E. rewrite E.
      apply strip_inline_absent, Hg. now right.
    - rewrite (strip_inline_absent LOG line)
        by (apply Hother; [now left|apply LOG_not_WARN]).
      exact (strip_inline_hit WARN eq_refl Hne a args w b Hargs Hw Hb Hsole). }
  unfold clean_line. fold LOG WARN.
  replace (contains LOG line || contains WARN line) with true.
  - rewrite (Hstart LOG), (Hstart WARN) by (first [now left|now right]).
    simpl orb. cbv iota.
    change (Re.sub "console\.warn\([^)]*\);\s*" []
              (Re.sub "console\.log\([^)]*\);\s*" [] line false) false)
      with (strip_inline WARN (strip_inline LOG line)).
    rewrite Hsub.
    destruct (strip (a ++ b)) as [|c r] eqn:E; [|reflexivity].
    apply strip_nil_blank in E.
    rewrite (all_space_in _ x E) in Hx; [discriminate|].
    unfold a. apply in_or_app. left. apply in_or_app. right. now left.
  - symmetry. apply orb_true_iff.
    destruct Hfn as [-> | ->]; [left|right]; apply contains_occurrence.
Qed.

End CleanMore.

(** X4. clean_console.py drops every line whose first visible text is
    [console.log(] or [console.warn(], with whatever follows on the
    line: the output is made of the cleaned lines before it and after
    it. *)
Theorem X4_clean_console_skips_opener_lines
    (fn ws rest : text) (l1 l2 : list text) :
  targeted fn -> all_space ws = true ->
  forallb (free_of NL) (l1 ++ (ws ++ fn ++ rest) :: l2) = true ->
  clean_console_text (Str.join [NL] (l1 ++ (ws ++ fn ++ rest) :: l2))
  = Str.join [NL] (clean_lines l1 [] ++ clean_lines l2 []).
Proof.
  intros Hfn Hws Hwf.
  rewrite clean_console_lines; [|now destruct l1|exact Hwf].
  rewrite clean_lines_app, clean_lines_cons.
  now rewrite clean_line_opener_first.
Qed.

(** X4 on a line that starts a block with a call that is not closed. *)
Lemma X4_clean_console_skips_opener_lines_witness :
  clean_console_text
    (Str.join [NL] [lit "start();"; lit "  console.warn(x, {"; lit "end();"])
  = Str.join [NL] [lit "start();"; lit "end();"].
Proof.
  exact (X4_clean_console_skips_opener_lines WARN (lit "  ") (lit "x, {")
           [lit "start();"] [lit "end();"] (or_intror eq_refl) eq_refl eq_refl).
Defined.

(** X5. clean_console.py, on a line where a targeted call with its
    terminator, whose arguments hold no [)], follows visible content
    and is the only targeted opener, takes out the call, the terminator
    and the white space after it and keeps the rest of the line, on its
    own line. *)
Theorem X5_clean_console_inline_excision
    (fn a1 : text) (x : N) (a2 args w b : text) (l1 l2 : list text) :
  targeted fn -> isspace x = false ->
  free_of RP args = true -> all_space w = true -> starts_visible b = true ->
  let a := a1 ++ x :: a2 in
  let line := a ++ fn ++ args ++ RP :: SEMI :: w ++ b in
  occs LOG line ++ occs WARN line = [length a] ->
  no_opener (a ++ b) = true ->
  forallb (free_of NL) (l1 ++ line :: l2) = true ->
  clean_console_text (Str.join [NL] (l1 ++ line :: l2))
  = Str.join [NL] (clean_lines l1 [] ++ [a ++ b] ++ clean_lines l2 []).
Proof.
  intros Hfn Hx Hargs Hw Hb a line Ho Hno Hwf.
  rewrite clean_console_lines; [|now destruct l1|exact Hwf].
  rewrite clean_lines_app, clean_lines_cons.
  unfold line, a. now rewrite clean_line_inline.
Qed.

(** X5 on a call between two statements of the second of three lines. *)
Lemma X5_clean_console_inline_excision_witness :
  clean_console_text
    (Str.join [NL] [lit "a();"; lit "doWork(); console.log(x); doMore();"; lit "b();"])
  = Str.join [NL] [lit "a();"; lit "doWork(); doMore();"; lit "b();"].
Proof.
  exact (X5_clean_console_inline_excision LOG (lit "doWork()") SEMI (lit " ")
           (lit "x") (lit " ") (lit "doMore();") [lit "a();"] [lit "b();"]
           (or_introl eq_refl) eq_refl eq_refl eq_refl eq_refl
           eq_refl eq_refl eq_refl).
Defined.

(** ** remove_console.py at the ends of the text *)

Section TextEnds.

Import Re.

Variable fn : text.
Hypothesis fn_visible : starts_visible fn = true.
Hypothesis fn_nonempty : fn <> [].

Lemma line_rule_not_empty prev : rmatch true (line_rule fn) prev [] = None.
Proof.
  destruct (rmatch true (line_rule fn) prev []) as [r|] eqn:E; [|reflexivity].
  destruct (line_rule_inv _ _ _ _ E) as (_ & w & v' & Ev & _).
  symmetry in Ev. apply app_eq_nil in Ev as [_ Ev].
  apply app_eq_nil in Ev as [Ev _]. congruence.
Qed.

(** A text that is one call, with white space around it, is a match of
    the line rule from its start to its end. *)
Lemma strip_line_lone ws1 args ws2 :
  all_space ws1 = true -> free_of RP args = true -> all_space ws2 = true ->
  strip_line fn (ws1 ++ fn ++ args ++ RP :: SEMI :: ws2) = [].
Proof.
  intros H1 Ha H2. unfold strip_line.
  pose proof (line_rule_hit fn fn_visible fn_nonempty None ws1 args ws2 []
                eq_refl H1 Ha H2 (or_introl eq_refl)) as Hm.
  set (t := ws1 ++ fn ++ args ++ RP :: SEMI :: ws2).
  replace (ws1 ++ fn ++ args ++ RP :: SEMI :: ws2 ++ []) with (t ++ []) in Hm
    by (unfold t; now rewrite <- !app_assoc).
  assert (Hne : t <> []).
  { unfold t. intros E. apply (f_equal length) in E.
    rewrite !length_app in E. simpl in E. lia. }
  pose proof (sub_hit true (line_rule fn) [] None t [] Hm Hne) as E.
  rewrite app_nil_r in E. rewrite E, app_nil_l.
  apply sub_end, line_rule_not_empty.
Qed.

(** The line rule on a call that stands alone on the last line: the
    match runs to the end of the text. *)
Lemma strip_line_hit_last a x ws1 args ws2 :
  isspace x = false -> all_space ws1 = true -> free_of RP args = true ->
  all_space ws2 = true ->
  occs fn ((a ++ [x; NL]) ++ ws1 ++ fn ++ args ++ RP :: SEMI :: ws2)
  = [length ((a ++ [x; NL]) ++ ws1)] ->
  strip_line fn ((a ++ [x; NL]) ++ ws1 ++ fn ++ args ++ RP :: SEMI :: ws2)
  = a ++ [x; NL].
Proof.
  intros Hx H1 Ha H2 Ho. unfold strip_line.
  set (pre := a ++ [x; NL]) in *.
  set (t := pre ++ ws1 ++ fn ++ args ++ RP :: SEMI :: ws2) in *.
  set (m := ws1 ++ fn ++ args ++ RP :: SEMI :: ws2).
  assert (Et : t = pre ++ m ++ []).
  { unfold t, m. now rewrite app_nil_r. }
  pose proof (fn_length fn fn_visible fn_nonempty) as Hfn.
  rewrite Et, sub_scan.
  - rewrite <- (app_nil_r pre) at 3. f_equal. rewrite sub_hit.
    + rewrite app_nil_l. apply sub_end, line_rule_not_empty.
    + unfold m. rewrite <- !app_assoc. simpl.
      apply line_rule_hit; auto.
      unfold pre. change [x; NL] with ([x] ++ [NL]).
      now rewrite app_assoc, prev_after_snoc.
    + unfold m. intros E. apply (f_equal length) in E.
      rewrite !length_app in E. simpl in E. lia.
  - intros u v Ep Hv.
    destruct (rmatch _ _ _ _) as [r|] eqn:E; [|reflexivity].
    destruct (line_rule_inv _ _ _ _ E) as (Hbol & w & v' & Ev & Hw & _).
    assert (L : length (u ++ w) = length (pre ++ ws1)).
    { apply (sole_position fn t _ _ (fn ++ v') Ho);
        [|apply startswith_app].
      rewrite <- app_assoc, <- Ev, app_assoc, <- Ep. exact Et. }
    assert (Euw : u ++ w = (a ++ [x]) ++ NL :: ws1).
    { assert (X : (u ++ w) ++ fn ++ v'
                  = (pre ++ ws1) ++ fn ++ args ++ RP :: SEMI :: ws2).
      { transitivity t.
        - rewrite <- app_assoc, <- Ev, app_assoc, <- Ep. now rewrite Et.
        - unfold t. now rewrite <- !app_assoc. }
      apply app_inj_1 in X as [X _]; [|exact L].
      rewrite X. unfold pre. now rewrite <- !app_assoc. }
    assert (Eu : u = a ++ [x]).
    { apply app_eq_inv in Euw as [(k & Eu & Ek)|(k & Eax & Ek)].
      - destruct k as [|c k]; [now rewrite app_nil_r in Eu|].
        exfalso. apply (f_equal length) in Ep.
        rewrite Eu in Ep. unfold pre in Ep.
        rewrite !length_app in Ep. simpl in Ep.
        destruct v; [congruence|simpl in Ep; lia].
      - destruct k as [|c k] using rev_ind;
          [now rewrite app_nil_r in Eax|].
        exfalso. rewrite app_assoc in Eax.
        apply app_inj_tail in Eax as [_ ->].
        rewrite (all_space_in w c Hw) in Hx; [discriminate|].
        rewrite Ek. apply in_or_app. left. apply in_or_app. right. now left. }
    rewrite Eu, prev_after_snoc in Hbol. simpl in Hbol.
    rewrite (visible_neqb_NL _ Hx) in Hbol. discriminate.
Qed.

End TextEnds.

(** X6. A text that holds nothing but one targeted call with its
    terminator, whose arguments hold no [)] (nor, in a call to
    [console.warn], a [console.log(]), with any white space (line breaks
    included) before and after it, is emptied by remove_console.py. *)
Theorem X6_remove_console_lone_call (fn ws1 args ws2 : text) :
  targeted fn -> all_space ws1 = true -> free_of RP args = true ->
  all_space ws2 = true ->
  fn = LOG \/ Str.contains LOG (ws1 ++ fn ++ args ++ RP :: SEMI :: ws2) = false ->
  remove_console_text (ws1 ++ fn ++ args ++ RP :: SEMI :: ws2) = [].
Proof.
  intros Hfn H1 Ha H2 Hlog. rewrite remove_console_stages.
  destruct Hfn as [-> | ->].
  - rewrite (strip_line_lone LOG eq_refl) by (assumption || discriminate).
    reflexivity.
  - destruct Hlog as [E|Hlog]; [discriminate E|].
    rewrite (strip_line_absent LOG) by exact Hlog.
    rewrite (strip_line_lone WARN eq_refl) by (assumption || discriminate).
    reflexivity.
Qed.

(** X6 on a file of one indented call between blank lines. *)
Lemma X6_remove_console_lone_call_witness :
  remove_console_text
    ([NL] ++ lit "  console.warn(a, b);" ++ [NL; NL])
  = [].
Proof.
  exact (X6_remove_console_lone_call WARN ([NL] ++ lit "  ") (lit "a, b")
           [NL; NL] (or_intror eq_refl) eq_refl eq_refl eq_refl
           (or_intror eq_refl)).
Defined.

(** X7. In remove_console.py, a targeted call whose arguments hold no
    [)], that stands alone on the last line of the text, after a line
    that ends with a visible character [x], is removed together with
    all the white space that follows it up to the end of the text, a
    last line break included, when it is the only targeted opener of
    the text; the line break before the line stays. *)
Theorem X7_remove_console_last_line
    (fn a : text) (x : N) (ws1 args ws2 : text) :
  targeted fn -> isspace x = false -> all_space ws1 = true ->
  free_of RP args = true -> all_space ws2 = true ->
  let t := (a ++ [x; NL]) ++ ws1 ++ fn ++ args ++ RP :: SEMI :: ws2 in
  occs LOG t ++ occs WARN t = [length ((a ++ [x; NL]) ++ ws1)] ->
  no_opener (a ++ [x; NL]) = true ->
  remove_console_text t = collapse_blank_lines (a ++ [x]) ++ [NL].
Proof.
  intros Hfn Hx H1 Ha H2 t Ho Hno.
  destruct (targeted_shape _ Hfn) as [Hv Hne].
  assert (Hin : In (length ((a ++ [x; NL]) ++ ws1)) (occs fn t)).
  { apply (occ_at fn t _ (fn ++ args ++ RP :: SEMI :: ws2));
      [|apply startswith_app].
    unfold t. now rewrite <- !app_assoc. }
  destruct (sole_opener fn t _ Hfn Hin Ho) as [Hsole Hother].
  rewrite (remove_console_one fn t (a ++ [x; NL]) Hfn Hother Hno).
  - change [x; NL] with ([x] ++ [NL]). rewrite app_assoc.
    rewrite (collapse_app_aux (length a)) by (exact Hx || lia).
    reflexivity.
  - left. now apply strip_line_hit_last.
Qed.

(** X7 on a call on the last line of a file that ends with line
    breaks. *)
Lemma X7_remove_console_last_line_witness :
  remove_console_text
    (lit "go();" ++ [NL] ++ lit "  console.log(x);  " ++ [NL; NL])
  = lit "go();" ++ [NL].
Proof.
  exact (X7_remove_console_last_line LOG (lit "go()") SEMI (lit "  ") (lit "x")
           (lit "  " ++ [NL; NL]) (or_introl eq_refl)
           eq_refl eq_refl eq_refl eq_refl eq_refl eq_refl).
Defined.

(** ** Calls that the patterns do not take *)

Lemma neutralize_catch_no_catch s :
  Str.contains CATCH s = false -> neutralize_catch s = s.
Proof.
  apply sub_absent. intros q v r H.
  apply contains_here. eapply rmatch_lits_startswith, H.
Qed.

(** X12. remove_console.py leaves a targeted call in the text when the
    first closing parenthesis after its opener is not followed by [;],
    as when an argument is itself a call: with that call as the only
    targeted opener and no [.catch(] in the text, only the collapse of
    blank lines applies. *)
Theorem X12_remove_console_keeps_unterminated_call (fn p args z : text) :
  targeted fn -> free_of RP args = true ->
  starts_outside (Re.Lit SEMI) z = true ->
  let t := p ++ fn ++ args ++ RP :: z in
  occs LOG t ++ occs WARN t = [length p] ->
  Str.contains CATCH t = false ->
  remove_console_text t = collapse_blank_lines t.
Proof.
  intros Hfn Ha Hz t Ho Hcatch.
  assert (Hin : In (length p) (occs fn t)).
  { apply (occ_at fn t p (fn ++ args ++ RP :: z));
      [reflexivity|apply startswith_app]. }
  destruct (sole_opener fn t _ Hfn Hin Ho) as [Hsole Hother].
  pose proof (strip_line_unterminated fn p args z Ha Hz Hsole) as E1.
  pose proof (strip_inline_unterminated fn p args z Ha Hz Hsole) as E2.
  fold t in E1, E2. rewrite remove_console_stages.
  destruct Hfn as [-> | ->].
  - assert (Hw : Str.contains WARN t = false).
    { apply Hother; [now right|]. intros E. now apply LOG_not_WARN. }
    rewrite E1, (strip_line_absent WARN), E2, (strip_inline_absent WARN),
      neutralize_catch_no_catch by assumption.
    reflexivity.
  - assert (Hl : Str.contains LOG t = false).
    { apply Hother; [now left|apply LOG_not_WARN]. }
    rewrite (strip_line_absent LOG), E1, (strip_inline_absent LOG), E2,
      neutralize_catch_no_catch by assumption.
    reflexivity.
Qed.

(** X12 on a call with a call as argument. *)
Lemma X12_remove_console_keeps_unterminated_call_witness :
  remove_console_text (lit "run(); console.log(f(x)); stop();")
  = lit "run(); console.log(f(x)); stop();".
Proof.
  exact (X12_remove_console_keeps_unterminated_call LOG (lit "run(); ")
           (lit "f(x") (lit "); stop();") (or_introl eq_refl)
           eq_refl eq_refl eq_refl eq_refl).
Defined.

(** ** Blank lines in the output of clean_console.py *)

Section CleanBlank.

Import Str.

Lemma strip_blank w : all_space w = true -> strip w = [].
Proof.
  intros H. unfold strip.
  rewrite <- (app_nil_r w), lstrip_space by exact H. reflexivity.
Qed.

Lemma clean_line_blank line l' :
  clean_line line = [l'] -> nonblank l' = false -> l' = line.
Proof.
  unfold clean_line.
  destruct (_ || _); [|now intros [= <-]].
  destruct (_ || _); [discriminate|].
  set (k := Re.sub _ [] (Re.sub _ [] line false) false).
  destruct (strip k) as [|c r] eqn:E; [discriminate|].
  intros [= <-] Hb. apply negb_false_iff in Hb.
  rewrite (strip_blank _ Hb) in E. discriminate.
Qed.

End CleanBlank.

(** X13. clean_console.py leaves no blank line where it has taken a
    call out: every blank line among the cleaned lines is a line of the
    input, unchanged. *)
Theorem X13_clean_console_adds_no_blank_line (lines : list text) (l' : text) :
  In l' (clean_lines lines []) -> nonblank l' = false -> In l' lines.
Proof.
  induction lines as [|l ls IH]; intros Hin Hb; [destruct Hin|].
  rewrite clean_lines_cons in Hin. apply in_app_or in Hin as [Hin|Hin].
  - left. destruct (clean_line_shape l) as [E|(k & E & _)];
      rewrite E in Hin; [destruct Hin|].
    destruct Hin as [<-|[]]. symmetry. now apply clean_line_blank.
  - right. now apply IH.
Qed.

(** X13 on an empty line after a call. *)
Lemma X13_clean_console_adds_no_blank_line_witness :
  In [] [lit "a(); console.log(x);"; []].
Proof.
  apply (X13_clean_console_adds_no_blank_line
           [lit "a(); console.log(x);"; []] []).
  - vm_compute. right. left. reflexivity.
  - reflexivity.
Defined.
